(** * dvag_scraper: sitemap walker, extraction engine and fetch worker

    A shallow embedding of [dvag_scraper.py].  Python [str] values are
    Rocq strings (code points below 256), [Optional[str]] is [option string],
    Python sets are [gset], the reachable web is a finite map from URLs to
    what a download yields.  Code that can raise returns a [result]; code
    that logs, downloads or mutates the shared visit set threads that state
    explicitly. *)

From Stdlib Require Import Ascii String List ZArith QArith Lia Lqa Sorting.Sorted.
From stdpp Require Import base option list sorting gmap strings.

Set Warnings "-register-all,-clear-no-such-hyp".

Local Open Scope string_scope.
Local Open Scope list_scope.

(** ** Python strings *)

Module Py.

(** Characters that [str.strip()] removes, among code points below 256:
    TAB, LF, VT, FF, CR, the separators FS, GS, RS, US, the space, NEL and
    the no-break space. *)
Definition isspace (a : ascii) : bool :=
  let n := N_of_ascii a in
  ((9 <=? n) && (n <=? 13) || (28 <=? n) && (n <=? 32)
   || (n =? 133) || (n =? 160))%N.

Fixpoint lstrip (s : string) : string :=
  match s with
  | String a t => if isspace a then lstrip t else s
  | EmptyString => EmptyString
  end.

(** [s.strip()] *)
Definition strip (s : string) : string :=
  String.rev (lstrip (String.rev (lstrip s))).

Definition lower_char (a : ascii) : ascii :=
  let n := N_of_ascii a in
  if ((65 <=? n) && (n <=? 90)
      || (192 <=? n) && (n <=? 222) && negb (n =? 215))%N
  then ascii_of_N (n + 32) else a.

(** [s.lower()] *)
Fixpoint lower (s : string) : string :=
  match s with
  | String a t => String (lower_char a) (lower t)
  | EmptyString => EmptyString
  end.

(** [s.startswith(p)] *)
Definition startswith (s p : string) : bool := String.prefix p s.

(** [s.endswith(p)] *)
Definition endswith (s p : string) : bool :=
  String.prefix (String.rev p) (String.rev s).

(** [p in s] on strings *)
Fixpoint contains (s p : string) : bool :=
  String.prefix p s ||
  match s with
  | String _ t => contains t p
  | EmptyString => false
  end.

(** [bool(s)] for a string: the empty string is falsy. *)
Definition nonempty (s : string) : bool :=
  match s with EmptyString => false | String _ _ => true end.

(** [bool(v)] for an [Optional[str]]: [None] and [""] are falsy. *)
Definition truthy (v : option string) : bool :=
  match v with Some s => nonempty s | None => false end.

(** [x in l] on a list of strings *)
Definition mem (x : string) (l : list string) : bool :=
  bool_decide (x ∈ l).

End Py.

(** ** Exceptions *)

Inductive exn : Type :=
| AttributeError       (* [.strip()] on a value that is not a string *)
| HTTPError            (* raised by [raise_for_status] *)
| RequestException     (* any other failure of [session.get] *)
| ValueError.          (* [time.sleep] on a negative length *)

Inductive result (A : Type) : Type :=
| Ok (a : A)
| Raise (e : exn).
Arguments Ok {A} a.
Arguments Raise {A} e.

#[global] Instance result_ret : MRet result := fun A a => Ok a.

#[global] Instance result_bind : MBind result := fun A B k m =>
  match m with
  | Ok a => k a
  | Raise e => Raise e
  end.

(** A [for] loop whose body can raise. *)
Fixpoint foldM {A B} (f : B → A → result B) (b : B) (l : list A) : result B :=
  match l with
  | [] => Ok b
  | x :: l' => b' ← f b x; foldM f b' l'
  end.

(** ** The record *)

Record Profile : Type := mkProfile {
  name : option string;
  phone : option string;
  phone2 : option string;
  zip_code : option string;
  city : option string;
  street : option string;
  email : option string;
  profile_url : option string
}.

(** [Profile()] *)
Definition Profile_new : Profile :=
  mkProfile None None None None None None None None.

(** The dataclass fields, in declaration order, as [asdict] lists them. *)
Inductive field : Type :=
| f_name | f_phone | f_phone2 | f_zip_code | f_city | f_street | f_email
| f_profile_url.

Definition fields : list field :=
  [f_name; f_phone; f_phone2; f_zip_code; f_city; f_street; f_email;
   f_profile_url].

Definition getattr (p : Profile) (f : field) : option string :=
  match f with
  | f_name => name p
  | f_phone => phone p
  | f_phone2 => phone2 p
  | f_zip_code => zip_code p
  | f_city => city p
  | f_street => street p
  | f_email => email p
  | f_profile_url => profile_url p
  end.

Definition setattr (p : Profile) (f : field) (v : option string) : Profile :=
  match f with
  | f_name => mkProfile v (phone p) (phone2 p) (zip_code p) (city p) (street p) (email p) (profile_url p)
  | f_phone => mkProfile (name p) v (phone2 p) (zip_code p) (city p) (street p) (email p) (profile_url p)
  | f_phone2 => mkProfile (name p) (phone p) v (zip_code p) (city p) (street p) (email p) (profile_url p)
  | f_zip_code => mkProfile (name p) (phone p) (phone2 p) v (city p) (street p) (email p) (profile_url p)
  | f_city => mkProfile (name p) (phone p) (phone2 p) (zip_code p) v (street p) (email p) (profile_url p)
  | f_street => mkProfile (name p) (phone p) (phone2 p) (zip_code p) (city p) v (email p) (profile_url p)
  | f_email => mkProfile (name p) (phone p) (phone2 p) (zip_code p) (city p) (street p) v (profile_url p)
  | f_profile_url => mkProfile (name p) (phone p) (phone2 p) (zip_code p) (city p) (street p) (email p) v
  end.

(** [asdict(extra).items()]: a snapshot of the fields of [extra], taken before
    the loop of [merge_profiles] assigns anything. *)
Definition asdict (p : Profile) : list (field * option string) :=
  map (fun f => (f, getattr p f)) fields.

(** One iteration of the loop of [merge_profiles]. *)
Definition merge_step (base : Profile) (item : field * option string) : Profile :=
  let '(field_name, value) := item in
  if Py.truthy value && negb (Py.truthy (getattr base field_name))
  then setattr base field_name value
  else base.

(** [merge_profiles(base, extra)]: [base] is updated in place and returned;
    the result is the new content of [base]. *)
Definition merge_profiles (base extra : Profile) : Profile :=
  fold_left merge_step (asdict extra) base.

(** ** JSON values, as [json.loads] returns them *)

Inductive json : Type :=
| JNull                                   (* [None] *)
| JBool (b : bool)
| JNumber (literal : string)              (* an [int] or a [float] *)
| JStr (s : string)
| JList (items : list json)
| JDict (items : list (string * json)).   (* each key once *)

Definition dict : Type := list (string * json).

(** [d.get(key)]: the value, or [None] when the key is missing. *)
Fixpoint dict_get (d : dict) (key : string) : json :=
  match d with
  | [] => JNull
  | (k, v) :: d' => if String.eqb k key then v else dict_get d' key
  end.

Definition _ensure_list (value : json) : list json :=
  match value with
  | JNull => []
  | JList items => items
  | _ => [value]
  end.

(** [_clean_text] on a value of its declared type [Optional[str]]. *)
Definition _clean_text (value : option string) : option string :=
  match value with
  | None => None
  | Some s => let cleaned := Py.strip s in
              if Py.nonempty cleaned then Some cleaned else None
  end.

(** [_clean_text] on a value taken from a JSON document: [value.strip()]
    raises [AttributeError] on anything that is neither [None] nor a [str]. *)
Definition _clean_text_json (value : json) : result (option string) :=
  match value with
  | JNull => Ok (_clean_text None)
  | JStr s => Ok (_clean_text (Some s))
  | _ => Raise AttributeError
  end.

(** ** Tier 1: one JSON-LD block *)

(** [if phone and phone not in telephones: telephones.append(phone)] *)
Definition add_phone (telephones : list string) (phone : option string)
  : list string :=
  match phone with
  | Some p => if Py.nonempty p && negb (Py.mem p telephones)
              then telephones ++ [p] else telephones
  | None => telephones
  end.

(** Body of the loop over [item.get("telephone")]. *)
Definition telephone_step (telephones : list string) (phone : json)
  : result (list string) :=
  phone ← _clean_text_json phone;
  Ok (add_phone telephones phone).

(** Body of the loop over [item.get("contactPoint")]; the state is
    [telephones] and [result.email]. *)
Definition contact_step (st : list string * option string) (contact : json)
  : result (list string * option string) :=
  let '(telephones, result_email) := st in
  match contact with
  | JDict c =>
      phone ← _clean_text_json (dict_get c "telephone");
      let telephones := add_phone telephones phone in
      email ← _clean_text_json (dict_get c "email");
      Ok (telephones,
          if Py.truthy email && negb (Py.truthy result_email)
          then email else result_email)
  | _ => Ok (telephones, result_email)
  end.

Definition extract_from_schema (item : dict) : result Profile :=
  let result := Profile_new in
  nm ← _clean_text_json (dict_get item "name");
  let result := setattr result f_name nm in
  telephones ← foldM telephone_step [] (_ensure_list (dict_get item "telephone"));
  '(telephones, em) ←
    foldM contact_step (telephones, email result)
          (_ensure_list (dict_get item "contactPoint"));
  let result := setattr result f_email em in
  let result :=
    match telephones with
    | [] => result
    | t0 :: _ =>
        let result := setattr result f_phone (Some t0) in
        if (1 <? length telephones)%nat
        then setattr result f_phone2 (telephones !! 1%nat)
        else result
    end in
  result ←
    match dict_get item "address" with
    | JDict address =>
        st ← _clean_text_json (dict_get address "streetAddress");
        let result := setattr result f_street st in
        zp ← _clean_text_json (dict_get address "postalCode");
        let result := setattr result f_zip_code zp in
        ct ← _clean_text_json (dict_get address "addressLocality");
        Ok (setattr result f_city ct)
    | _ => Ok result
    end;
  if negb (Py.truthy (email result))
  then em ← _clean_text_json (dict_get item "email");
       Ok (setattr result f_email em)
  else Ok result.

(** ** The parsed page *)

(** What the code reads off [BeautifulSoup(html, "html.parser")]:
    - for every [<script type="application/ld+json">], in document order, the
      value [json.loads] gives for its text, or [None] when the text is empty
      or [json.loads] raises [JSONDecodeError] (both are skipped);
    - every tag with an [itemprop] attribute, in document order: the
      attribute's value and the tag's [get_text()];
    - the [href] of every [<a>] that has one, in document order. *)
Record Soup : Type := mkSoup {
  ld_json_scripts : list (option json);
  itemprop_tags : list (string * string);
  anchor_hrefs : list string
}.

Definition schema_types : list string :=
  ["person"; "financialservice"; "localbusiness"; "professionalservice"].

(** [str(t).lower()] is one of the four type names.  [str] of a JSON value
    that is not a string ([None], [True], a number, a list, a dict) is none
    of them in any case of letters. *)
Definition type_matches (t : json) : bool :=
  match t with
  | JStr s => Py.mem (Py.lower s) schema_types
  | _ => false
  end.

(** The items one script yields. *)
Definition schema_items (payload : json) : list dict :=
  flat_map (fun item =>
    match item with
    | JDict d =>
        if existsb type_matches (_ensure_list (dict_get d "@type"))
        then [d] else []
    | _ => []
    end) (_ensure_list payload).

Definition _iter_schema_candidates (soup : Soup) : list dict :=
  flat_map (fun script =>
    match script with
    | Some payload => schema_items payload
    | None => []
    end) (ld_json_scripts soup).

(** ** Tier 2: micro-attributes *)

(** [soup.find(attrs={"itemprop": key})], then [get_text()] *)
Definition find_itemprop (soup : Soup) (key : string) : option string :=
  snd <$> List.find (fun t => String.eqb (fst t) key) (itemprop_tags soup).

(** [soup.find_all(attrs={"itemprop": key})], then [get_text()] of each *)
Definition find_all_itemprop (soup : Soup) (key : string) : list string :=
  map snd (List.filter (fun t => String.eqb (fst t) key) (itemprop_tags soup)).

(** [href.split(":", 1)[-1]] *)
Fixpoint after_first_colon_aux (whole s : string) : string :=
  match s with
  | String a t => if Ascii.eqb a ":" then t else after_first_colon_aux whole t
  | EmptyString => whole
  end.
Definition after_first_colon (s : string) : string :=
  after_first_colon_aux s s.

Definition extract_microdata (soup : Soup) : Profile :=
  let profile := Profile_new in
  let profile :=
    match find_itemprop soup "name" with
    | Some text => setattr profile f_name (_clean_text (Some text))
    | None => profile
    end in
  let phones :=
    fold_left (fun phones text => add_phone phones (_clean_text (Some text)))
              (find_all_itemprop soup "telephone") [] in
  let profile :=
    match phones with
    | [] => profile
    | p0 :: _ =>
        let profile := setattr profile f_phone (Some p0) in
        if (1 <? length phones)%nat
        then setattr profile f_phone2 (phones !! 1%nat)
        else profile
    end in
  let profile :=
    match List.find (fun href => Py.startswith (Py.lower href) "mailto:")
                    (anchor_hrefs soup) with
    | Some href =>
        if Py.nonempty href
        then setattr profile f_email (_clean_text (Some (after_first_colon href)))
        else profile
    | None => profile
    end in
  let profile :=
    match find_itemprop soup "streetAddress" with
    | Some text => setattr profile f_street (_clean_text (Some text))
    | None => profile
    end in
  let profile :=
    match find_itemprop soup "postalCode" with
    | Some text => setattr profile f_zip_code (_clean_text (Some text))
    | None => profile
    end in
  match find_itemprop soup "addressLocality" with
  | Some text => setattr profile f_city (_clean_text (Some text))
  | None => profile
  end.

(** ** Observable events

    Everything the code does besides returning: log records, downloads,
    pauses, and the calls of the two extractors. *)

Inductive level : Type := DEBUG | INFO | WARNING | ERROR.

Inductive message : Type :=
| msg_sitemap_unparsable                  (* "No se pudo interpretar el sitemap" *)
| msg_downloading_sitemap (url : string)  (* "Descargando sitemap" *)
| msg_sitemap_failed (url : string)       (* "Fallo al procesar" *)
| msg_total_profiles (n : nat)            (* "Total de perfiles detectados" *)
| msg_waiting (url : string)              (* "Esperando ... antes de solicitar" *)
| msg_http_error (url : string)           (* "Error HTTP ... en" *)
| msg_network_failure (url : string)      (* "Fallo de red en" *)
| msg_empty_profile (url : string).       (* "Ficha vacía en" *)

Inductive event : Type :=
| ev_log (lvl : level) (msg : message)
| ev_get (url : string)                   (* [session.get(url)] *)
| ev_sleep                                (* [time.sleep] *)
| ev_extract_from_schema (item : dict)    (* a call of [extract_from_schema] *)
| ev_extract_microdata.                   (* a call of [extract_microdata] *)

(** ** The page parser *)

(** The loop of [parse_profile_page] over the tier-1 candidates. *)
Fixpoint merge_schemas (candidates : list dict) (profile : Profile)
  : result Profile * list event :=
  match candidates with
  | [] => (Ok profile, [])
  | schema :: rest =>
      match extract_from_schema schema with
      | Ok extra =>
          let '(r, evs) := merge_schemas rest (merge_profiles profile extra) in
          (r, ev_extract_from_schema schema :: evs)
      | Raise e => (Raise e, [ev_extract_from_schema schema])
      end
  end.

(** [parse_profile_page(html, url)], on the parsed [html]; the events are the
    extractor calls it makes, in order. *)
Definition parse_profile_page (soup : Soup) (url : string)
  : result Profile * list event :=
  let profile := setattr Profile_new f_profile_url (Some url) in
  match merge_schemas (_iter_schema_candidates soup) profile with
  | (Ok profile, evs) =>
      if negb (Py.truthy (name profile)) || negb (Py.truthy (phone profile))
      then (Ok (merge_profiles profile (extract_microdata soup)),
            evs ++ [ev_extract_microdata])
      else (Ok profile, evs)
  | (Raise e, evs) => (Raise e, evs)
  end.

(** ** Downloads *)

(** The web: for each URL what [fetch_response] does there, a response body
    or the exception [session.get] or [raise_for_status] raises.  A URL the
    map does not have cannot be reached. *)
Definition fetch_response {A} (web : gmap string (result A)) (url : string)
  : result A :=
  default (Raise RequestException) (web !! url).

(** What [session.get] returns: the status code of the final answer and its
    body. *)
Record Response (A : Type) : Type := mkResponse {
  status_code : Z;
  body : A
}.
Arguments mkResponse {A} status_code body.
Arguments status_code {A} r.
Arguments body {A} r.

(** [response.raise_for_status()], as [requests] has it: [HTTPError] for a
    client error (400 to 499) or a server error (500 to 599), nothing for any
    other status. *)
Definition raise_for_status {A} (response : Response A) : result unit :=
  if ((400 <=? status_code response) && (status_code response <? 600))%Z
  then Raise HTTPError else Ok tt.

(** [session.get(url)] on a network that answers each URL with a response or
    makes the request fail; a URL the network does not have cannot be
    reached. *)
Definition session_get {A} (answers : gmap string (result (Response A)))
    (url : string) : result (Response A) :=
  default (Raise RequestException) (answers !! url).

(** The three lines of [fetch_response] on what [session.get] gave. *)
Definition checked {A} (answer : result (Response A)) : result A :=
  response ← answer;
  _ ← raise_for_status response;
  Ok (body response).

(** The web that [fetch_response] sees on a network of answers. *)
Definition web_of {A} (answers : gmap string (result (Response A)))
  : gmap string (result A) :=
  checked <$> answers.

(** ** Sitemap documents *)

(** An [xml.etree] element: tag (with its namespace in braces), [text],
    children. *)
Inductive element : Type :=
| Element (tag : string) (text : option string) (children : list element).

Definition tag (e : element) : string :=
  match e with Element t _ _ => t end.
Definition text (e : element) : option string :=
  match e with Element _ t _ => t end.
Definition children (e : element) : list element :=
  match e with Element _ _ c => c end.

(** A decoded sitemap body, as [ET.fromstring] takes it: a document with its
    root, or text on which it raises [ParseError]. *)
Inductive xml_text : Type :=
| Malformed
| Document (root : element).

Definition SITEMAP_NS : string := "{http://www.sitemaps.org/schemas/sitemap/0.9}".
Definition PROFILE_FRAGMENT : string := "/vermoegensberater/".

(** [e.iter()]: the element and everything below it, in document order. *)
Fixpoint iter (e : element) : list element :=
  match e with
  | Element _ _ cs => e :: flat_map iter cs
  end.

(** [root.findall(".//" + t)]: the elements below [root] (not [root]) with
    tag [t], in document order. *)
Definition findall_descendants (root : element) (t : string) : list element :=
  List.filter (fun e => String.eqb (tag e) t) (flat_map iter (children root)).

(** The loop of [extract_loc_values] over the elements found. *)
Definition loc_texts (loc_elements : list element) : list string :=
  flat_map (fun e =>
    match text e with
    | Some t => if Py.nonempty t then [Py.strip t] else []
    | None => []
    end) loc_elements.

Definition extract_loc_values (xml : xml_text) : list string * list event :=
  match xml with
  | Malformed => ([], [ev_log WARNING msg_sitemap_unparsable])
  | Document root =>
      let loc_elements := findall_descendants root (SITEMAP_NS ++ "loc") in
      let loc_elements :=
        match loc_elements with
        | [] => findall_descendants root "loc"
        | _ => loc_elements
        end in
      (loc_texts loc_elements, [])
  end.

(** ** The sitemap walker *)

(** The store of the walker: the [set] objects alive, by reference, and the
    events so far. *)
Record state : Type := mkState {
  heap : gmap nat (gset string);
  trace : list event
}.

Definition emit (ev : event) (σ : state) : state :=
  mkState (heap σ) (trace σ ++ [ev]).

(** [set()] *)
Definition alloc_set (σ : state) : nat * state :=
  let r := fresh (dom (heap σ)) in
  (r, mkState (<[r := ∅]> (heap σ)) (trace σ)).

(** The set a reference points to. *)
Definition deref (σ : state) (r : nat) : gset string := heap σ !!! r.

(** [seen.add(url)] *)
Definition set_add (r : nat) (url : string) (σ : state) : state :=
  mkState (<[r := deref σ r ∪ {[url]}]> (heap σ)) (trace σ).

(** [seen or set()]: [None] and the empty set are falsy, and then a new set
    is made; the caller's set, if any, is left alone from there on. *)
Definition seen_or_set (seen : option nat) (σ : state) : nat * state :=
  match seen with
  | Some r => if decide (deref σ r = ∅) then alloc_set σ else (r, σ)
  | None => alloc_set σ
  end.

(** The loop of [expand_sitemap] over [locs]; [rec loc] is the call
    [expand_sitemap(loc, seen)].  [None] means the call did not return within
    the recursion depth allowed. *)
Fixpoint expand_locs (rec : string → state → option (result (list string) * state))
    (locs : list string) (profile_urls : list string) (σ : state)
  : option (result (list string) * state) :=
  match locs with
  | [] => Some (Ok profile_urls, σ)
  | loc :: rest =>
      if negb (Py.nonempty loc) then expand_locs rec rest profile_urls σ
      else
        let lowered := Py.lower loc in
        if Py.endswith lowered ".xml" || Py.endswith lowered ".xml.gz" then
          match rec loc σ with
          | Some (Ok found, σ') => expand_locs rec rest (profile_urls ++ found) σ'
          | Some (Raise e, σ') => Some (Raise e, σ')
          | None => None
          end
        else if Py.contains lowered PROFILE_FRAGMENT
        then expand_locs rec rest (profile_urls ++ [loc]) σ
        else expand_locs rec rest profile_urls σ
  end.

(** [expand_sitemap(url, seen)], with [depth] bounding the nesting of calls.
    The body read from the web is the result of [_read_sitemap_content]. *)
Fixpoint expand_sitemap (depth : nat) (web : gmap string (result xml_text))
    (url : string) (seen : option nat) (σ : state)
  : option (result (list string) * state) :=
  match depth with
  | O => None
  | S depth' =>
      let '(seen, σ) := seen_or_set seen σ in
      if decide (url ∈ deref σ seen) then Some (Ok [], σ)
      else
        let σ := set_add seen url σ in
        let σ := emit (ev_log DEBUG (msg_downloading_sitemap url)) σ in
        let σ := emit (ev_get url) σ in
        match fetch_response web url with
        | Raise e => Some (Raise e, σ)
        | Ok body =>
            let '(locs, evs) := extract_loc_values body in
            let σ := mkState (heap σ) (trace σ ++ evs) in
            expand_locs (fun loc σ => expand_sitemap depth' web loc (Some seen) σ)
                        locs [] σ
        end
  end.

(** [sorted(urls)]: strings compare by code points. *)
Definition sorted (urls : gset string) : list string :=
  merge_sort String.le (elements urls).

(** The loop of [collect_profile_urls] over the seeds; every exception of
    [expand_sitemap] is caught here. *)
Fixpoint collect_seeds (depth : nat) (web : gmap string (result xml_text))
    (sitemap_urls : list string) (urls : gset string) (σ : state)
  : option (gset string * state) :=
  match sitemap_urls with
  | [] => Some (urls, σ)
  | sitemap_url :: rest =>
      match expand_sitemap depth web sitemap_url None σ with
      | Some (Ok found, σ') =>
          collect_seeds depth web rest (urls ∪ list_to_set found) σ'
      | Some (Raise e, σ') =>
          collect_seeds depth web rest urls
            (emit (ev_log WARNING (msg_sitemap_failed sitemap_url)) σ')
      | None => None
      end
  end.

Definition collect_profile_urls (depth : nat)
    (web : gmap string (result xml_text)) (sitemap_urls : list string)
    (σ : state) : option (list string * state) :=
  '(urls, σ) ← collect_seeds depth web sitemap_urls ∅ σ;
  let ordered := sorted urls in
  Some (ordered, emit (ev_log INFO (msg_total_profiles (length ordered))) σ).

(** ** The pipeline worker *)

(** [fetch_profile(url, delay_range)] against a web of profile pages (each
    body already parsed); the result is what it returns or raises, and the
    events it leaves.  The pause is taken to return, as it does for every
    waiting time that is not negative; [fetch_profile_paced] below draws the
    waiting time and has the other case. *)
Definition fetch_profile (web : gmap string (result Soup)) (url : string)
    (delay_range : Q * Q) : result (option Profile) * list event :=
  let '(min_delay, max_delay) := delay_range in
  let pause :=
    if Qlt_le_dec 0 max_delay
    then [ev_log DEBUG (msg_waiting url); ev_sleep] else [] in
  match fetch_response web url with
  | Raise HTTPError =>
      (Ok None, pause ++ [ev_get url; ev_log WARNING (msg_http_error url)])
  | Raise RequestException =>
      (Ok None, pause ++ [ev_get url; ev_log WARNING (msg_network_failure url)])
  | Raise e => (Raise e, pause ++ [ev_get url])
  | Ok soup =>
      match parse_profile_page soup url with
      | (Ok profile, evs) =>
          let empty :=
            if negb (Py.truthy (name profile) || Py.truthy (phone profile)
                     || Py.truthy (email profile))
            then [ev_log DEBUG (msg_empty_profile url)] else [] in
          (Ok (Some profile), pause ++ [ev_get url] ++ evs ++ empty)
      | (Raise e, evs) => (Raise e, pause ++ [ev_get url] ++ evs)
      end
  end.

(** [random.uniform(a, b)] computes [a + (b - a) * random()]; [u] stands for
    the value of [random()], a number from 0 up to 1. *)
Definition uniform (a b u : Q) : Q := a + (b - a) * u.

(** [time.sleep(secs)]: a negative length raises [ValueError]. *)
Definition sleep (secs : Q) : result unit :=
  if Qlt_le_dec secs 0 then Raise ValueError else Ok tt.

(** The pause of [fetch_profile], lines 298 to 302, for the value [u] of
    [random()]: the waiting time is drawn and logged, then slept. *)
Definition pause (url : string) (delay_range : Q * Q) (u : Q)
  : result unit * list event :=
  let '(min_delay, max_delay) := delay_range in
  if Qlt_le_dec 0 max_delay then
    let sleep_time := uniform min_delay max_delay u in
    match sleep sleep_time with
    | Ok _ => (Ok tt, [ev_log DEBUG (msg_waiting url); ev_sleep])
    | Raise e => (Raise e, [ev_log DEBUG (msg_waiting url)])
    end
  else (Ok tt, []).

(** [fetch_profile(url, delay_range)] with its pause, for the value [u] of
    [random()]: an exception of the pause leaves the call before anything is
    requested; after a pause that returns the call goes on as
    [fetch_profile] has it. *)
Definition fetch_profile_paced (web : gmap string (result Soup)) (url : string)
    (delay_range : Q * Q) (u : Q) : result (option Profile) * list event :=
  match pause url delay_range u with
  | (Ok _, _) => fetch_profile web url delay_range
  | (Raise e, evs) => (Raise e, evs)
  end.

(** * Vocabulary of the statements *)

#[global] Instance field_eq_dec : EqDecision field.
Proof. solve_decision. Defined.

(** What one field of the record becomes when a candidate value meets it:
    the candidate's value if that is non-empty and the field is empty or
    unset, otherwise what the field had. *)
Definition first_wins (old new : option string) : option string :=
  if Py.truthy new && negb (Py.truthy old) then new else old.

(** [Profile(profile_url=url)] *)
Definition Profile_of_url (url : string) : Profile :=
  setattr Profile_new f_profile_url (Some url).

(** ** Sample pages *)

Module Samples.

Definition url : string := "https://www.dvag.de/vermoegensberater/jane.doe".

(** The block
    [{"@type":"Person","name":"Jane Doe","telephone":"+49 1 2 3",
      "address":{"streetAddress":"Main St 1","postalCode":"12345",
                 "addressLocality":"Berlin"}}] *)
Definition jane_block : dict :=
  [("@type", JStr "Person"); ("name", JStr "Jane Doe");
   ("telephone", JStr "+49 1 2 3");
   ("address", JDict [("streetAddress", JStr "Main St 1");
                      ("postalCode", JStr "12345");
                      ("addressLocality", JStr "Berlin")])].

Definition jane_page : Soup := mkSoup [Some (JDict jane_block)] [] [].

(** No structured data; [itemprop] tags for a name and a telephone. *)
Definition john_page : Soup :=
  mkSoup [] [("name", "John Roe"); ("telephone", "+49 9 8 7")] [].

(** A page with nothing to extract. *)
Definition blank_page : Soup := mkSoup [] [] [].

(** A first block with one telephone, a second block with two. *)
Definition office_block : dict :=
  [("@type", JStr "LocalBusiness"); ("telephone", JStr "+49 30 1")].
Definition person_block : dict :=
  [("@type", JStr "Person"); ("name", JStr "Jane Doe");
   ("telephone", JList [JStr "+49 30 2"; JStr "+49 30 3"])].
Definition two_block_page : Soup :=
  mkSoup [Some (JList [JDict office_block; JDict person_block])] [] [].

(** A block with a telephone and no name, and two [itemprop] telephones. *)
Definition phone_only_page : Soup :=
  mkSoup [Some (JDict office_block)]
         [("telephone", "+49 40 1"); ("telephone", " +49 40 2 ")] [].

(** A block whose name is a number. *)
Definition bad_name_page : Soup :=
  mkSoup [Some (JDict [("@type", JStr "Person"); ("name", JNumber "7")])] [] [].

(** Five telephone values, two of them repeated after trimming. *)
Definition many_phones_block : dict :=
  [("@type", JStr "Person");
   ("telephone", JList [JStr "+49 1"; JStr " +49 1 "; JNull; JStr "+49 2"]);
   ("contactPoint", JList [JDict [("telephone", JStr "+49 2")];
                           JStr "n/a";
                           JDict [("telephone", JStr "+49 3")]])].

Definition many_phones : Profile :=
  mkProfile None (Some "+49 1") (Some "+49 2") None None None None None.

Definition two_block_record : Profile :=
  mkProfile (Some "Jane Doe") (Some "+49 30 1") (Some "+49 30 3")
            None None None None (Some url).

Definition phone_only_record : Profile :=
  mkProfile None (Some "+49 30 1") (Some "+49 40 2")
            None None None None (Some url).

Definition jane : Profile :=
  mkProfile (Some "Jane Doe") (Some "+49 1 2 3") None (Some "12345")
            (Some "Berlin") (Some "Main St 1") None (Some url).

Definition john : Profile :=
  mkProfile (Some "John Roe") (Some "+49 9 8 7") None None None None None
            (Some url).

(** A record no extractor returns: its name has white space at both ends. *)
Definition padded : Profile :=
  mkProfile (Some " Jane Doe ") (Some "+49 1 2 3") None None None None None
            (Some url).

End Samples.

(** ** Phones, as the specification words them *)

(** Drop duplicates, keeping each value where it first occurs. *)
Fixpoint dedup (l : list string) : list string :=
  match l with
  | [] => []
  | x :: l' => x :: filter (fun y => y ≠ x) (dedup l')
  end.

(** The phone a JSON value holds: its text trimmed, if it is a string and
    something is left. *)
Definition phone_value (v : json) : option string :=
  match v with
  | JStr s => _clean_text (Some s)
  | _ => None
  end.

(** The phone of one contact point. *)
Definition contact_phone (contact : json) : option string :=
  match contact with
  | JDict c => phone_value (dict_get c "telephone")
  | _ => None
  end.

(** The phones of a block in discovery order: those of the top-level
    telephone field, then those of the contact points. *)
Definition discovered_phones (item : dict) : list string :=
  omap phone_value (_ensure_list (dict_get item "telephone"))
  ++ omap contact_phone (_ensure_list (dict_get item "contactPoint")).

(** The phones of the telephone micro-attributes, in document order. *)
Definition discovered_phones_microdata (soup : Soup) : list string :=
  omap (fun t => _clean_text (Some t)) (find_all_itemprop soup "telephone").

(** ** Sample webs of profile pages *)

Module SampleWeb.

Definition gone : string := "https://www.dvag.de/vermoegensberater/gone".
Definition blank : string := "https://www.dvag.de/vermoegensberater/blank".

(** One page, one URL answered with an error status, one blank page; every
    other URL is unreachable. *)
Definition pages : gmap string (result Soup) :=
  <[Samples.url := Ok Samples.jane_page]>
    (<[gone := Raise HTTPError]> (<[blank := Ok Samples.blank_page]> ∅)).

Definition unreachable : string := "https://example.invalid/".

Definition delay_range : Q * Q := (3 # 10, 8 # 10)%Q.

End SampleWeb.

(** ** A sample network *)

Module SampleNet.

Definition choices : string := "https://www.dvag.de/vermoegensberater/choices".
Definition down : string := "https://www.dvag.de/vermoegensberater/down".

(** One page answered with 200, one URL answered with 404, one page answered
    with 300 (a redirection without a target, which [requests] hands back as
    it is), one request that times out. *)
Definition answers : gmap string (result (Response Soup)) :=
  <[Samples.url := Ok (mkResponse 200 Samples.jane_page)]>
 (<[SampleWeb.gone := Ok (mkResponse 404 Samples.blank_page)]>
 (<[choices := Ok (mkResponse 300 Samples.john_page)]>
 (<[down := Raise RequestException]> ∅))).

End SampleNet.

(** A record without name, phone and email: the test of [fetch_profile]. *)
Definition no_signal (p : Profile) : bool :=
  negb (Py.truthy (name p) || Py.truthy (phone p) || Py.truthy (email p)).

(** ** Sitemap documents, as the specification words them *)

(** [below root e]: the element [e] lies somewhere under [root]. *)
Inductive below : element → element → Prop :=
| below_child root e : e ∈ children root → below root e
| below_deeper root c e : c ∈ children root → below c e → below root e.

(** [e] is a location element of the given form with a non-empty text, and
    [v] is that text trimmed. *)
Definition location_value (form : string) (e : element) (v : string) : Prop :=
  tag e = form ∧ ∃ t, text e = Some t ∧ t ≠ "" ∧ v = Py.strip t.

Definition namespaced_loc : string := SITEMAP_NS ++ "loc".
Definition plain_loc : string := "loc".

(** Induction on elements that reaches the children. *)
Fixpoint element_children_ind (P : element → Prop)
    (step : ∀ t x cs, Forall P cs → P (Element t x cs)) (e : element) : P e :=
  match e with
  | Element t x cs =>
      step t x cs
        ((fix go (cs : list element) : Forall P cs :=
            match cs with
            | [] => @List.Forall_nil _ P
            | c :: cs' =>
                @List.Forall_cons _ P c cs' (element_children_ind P step c) (go cs')
            end) cs)
  end.

Module SampleXml.

(** [<urlset xmlns:s="http://www.sitemaps.org/schemas/sitemap/0.9">
     <url><s:loc>https://a.example/vermoegensberater/a</s:loc></url>
     <url><loc>https://a.example/vermoegensberater/b</loc></url>
   </urlset>] *)
Definition a : string := "https://a.example/vermoegensberater/a".
Definition b : string := "https://a.example/vermoegensberater/b".
Definition loc_a : element := Element namespaced_loc (Some a) [].
Definition loc_b : element := Element plain_loc (Some b) [].
Definition mixed : element :=
  Element "urlset" None [Element "url" None [loc_a]; Element "url" None [loc_b]].

(** The same with both locations in the namespaced form. *)
Definition loc_b_ns : element := Element namespaced_loc (Some b) [].
Definition namespaced : element :=
  Element (SITEMAP_NS ++ "urlset") None
    [Element (SITEMAP_NS ++ "url") None [loc_a];
     Element (SITEMAP_NS ++ "url") None [loc_b_ns]].

(** The same with both locations without namespace. *)
Definition loc_a_plain : element := Element plain_loc (Some a) [].
Definition plain : element :=
  Element "urlset" None
    [Element "url" None [loc_a_plain]; Element "url" None [loc_b]].

End SampleXml.

(** ** The walker, as the statements see it *)

(** The URLs downloaded, in order. *)
Definition fetched (evs : list event) : list string :=
  omap (fun ev => match ev with ev_get url => Some url | _ => None end) evs.

(** The store an expansion starts from when nothing has run before. *)
Definition initial_state : state := mkState ∅ [].

(** [expand_sitemap] with the visit set passed and returned as a value and the
    events returned instead of appended to a store.  The proofs go through
    this form; [expand_sitemap] is shown to compute the same. *)
Definition walk_result : Type := result (list string) * gset string * list event.

Fixpoint walk_locs (rec : string → gset string → option walk_result)
    (locs : list string) (profile_urls : list string) (seen : gset string)
  : option walk_result :=
  match locs with
  | [] => Some (Ok profile_urls, seen, [])
  | loc :: rest =>
      if negb (Py.nonempty loc) then walk_locs rec rest profile_urls seen
      else
        let lowered := Py.lower loc in
        if Py.endswith lowered ".xml" || Py.endswith lowered ".xml.gz" then
          match rec loc seen with
          | Some (Ok found, seen', evs) =>
              match walk_locs rec rest (profile_urls ++ found) seen' with
              | Some (res, seen'', evs') => Some (res, seen'', evs ++ evs')
              | None => None
              end
          | Some (Raise e, seen', evs) => Some (Raise e, seen', evs)
          | None => None
          end
        else if Py.contains lowered PROFILE_FRAGMENT
        then walk_locs rec rest (profile_urls ++ [loc]) seen
        else walk_locs rec rest profile_urls seen
  end.

Fixpoint walk (depth : nat) (web : gmap string (result xml_text))
    (url : string) (seen : gset string) : option walk_result :=
  match depth with
  | O => None
  | S depth' =>
      if decide (url ∈ seen) then Some (Ok [], seen, [])
      else
        let seen := seen ∪ {[url]} in
        let pre := [ev_log DEBUG (msg_downloading_sitemap url); ev_get url] in
        match fetch_response web url with
        | Raise e => Some (Raise e, seen, pre)
        | Ok body =>
            let '(locs, evs) := extract_loc_values body in
            match walk_locs (walk depth' web) locs [] seen with
            | Some (res, seen', evs') => Some (res, seen', pre ++ evs ++ evs')
            | None => None
            end
        end
  end.

(** The store after a call that turned the set at [r] into [seen] and left
    the events [evs]. *)
Definition lift (r : nat) (σ : state) (w : walk_result)
  : result (list string) * state :=
  let '(res, seen, evs) := w in
  (res, mkState (<[r := seen]> (heap σ)) (trace σ ++ evs)).

(** What an expansion leaves: the visit set only grows, every download is of
    a URL that was not in the set before and is in it after, and no URL is
    downloaded twice. *)
Definition walk_inv (seen seen' : gset string) (evs : list event) : Prop :=
  seen ⊆ seen' ∧ NoDup (fetched evs) ∧
  (∀ u, u ∈ fetched evs → (u ∉ seen) ∧ (u ∈ seen')).

(** ** Sample sitemaps *)

Module SampleSitemaps.

Definition index : string := "https://a.example/sitemap-index.xml".
Definition north : string := "https://a.example/sitemap-north.xml".
Definition south : string := "https://a.example/sitemap-south.xml.gz".
Definition broken : string := "https://a.example/sitemap-broken.xml".
Definition missing : string := "https://a.example/sitemap-missing.xml".
Definition anna : string := "https://a.example/vermoegensberater/anna".
Definition bert : string := "https://a.example/vermoegensberater/bert".
Definition about : string := "https://a.example/about".

Definition urlset (locs : list string) : xml_text :=
  Document (Element (SITEMAP_NS ++ "urlset") None
    (map (fun l => Element (SITEMAP_NS ++ "url") None
                     [Element namespaced_loc (Some l) []]) locs)).

(** The index lists two children and itself; [north] points back to the
    index and to [south]; [south] points to [north]; [broken] is not XML. *)
Definition web : gmap string (result xml_text) :=
  <[index := Ok (urlset [north; index; south; broken])]>
 (<[north := Ok (urlset [bert; index; south; about])]>
 (<[south := Ok (urlset [north; anna; bert])]>
 (<[broken := Ok Malformed]> ∅))).

(** The same web, whose index also lists a sitemap that cannot be fetched. *)
Definition web_with_gap : gmap string (result xml_text) :=
  <[index := Ok (urlset [north; missing; south])]> web.

End SampleSitemaps.

(** The sitemap URLs of the web not yet in the visit set: the measure that
    bounds the nesting of [expand_sitemap]. *)
Definition unvisited (web : gmap string (result xml_text)) (seen : gset string)
  : nat :=
  size (dom web ∖ seen).

(** The profile URLs the seeds yield: for each seed whose expansion returns,
    what it returns. *)
Fixpoint found_by (depth : nat) (web : gmap string (result xml_text))
    (seeds : list string) : gset string :=
  match seeds with
  | [] => ∅
  | seed :: rest =>
      match walk depth web seed ∅ with
      | Some (Ok found, _, _) => list_to_set found
      | _ => ∅
      end ∪ found_by depth web rest
  end.

(** ** Trimmed text *)

(** The characters of a string. *)
Abbreviation chars := list_ascii_of_string.

(** A string that neither starts nor ends with a character [strip] removes. *)
Definition no_outer_space (s : string) : Prop :=
  (∀ a, head (chars s) = Some a → Py.isspace a = false) ∧
  (∀ a, last (chars s) = Some a → Py.isspace a = false).

(** A field value as the extractors store it: absent, or a text that is not
    empty and has no white space at either end. *)
Definition clean (v : option string) : Prop :=
  match v with
  | None => True
  | Some s => s ≠ "" ∧ no_outer_space s
  end.

(** Leading white space dropped, on lists of characters. *)
Fixpoint drop_spaces (l : list ascii) : list ascii :=
  match l with
  | a :: l' => if Py.isspace a then drop_spaces l' else l
  | [] => []
  end.

(** ** A structured-data block, as a value *)

(** A JSON value [_clean_text] accepts: [null] (or a missing key) or a
    string. *)
Definition texty (v : json) : bool :=
  match v with
  | JNull | JStr _ => true
  | _ => false
  end.

(** The text a JSON value holds, trimmed, if it is a string and something is
    left. *)
Definition cleaned_text (v : json) : option string :=
  match v with
  | JStr s => _clean_text (Some s)
  | _ => None
  end.

(** The email of one contact point. *)
Definition contact_email (contact : json) : option string :=
  match contact with
  | JDict c => cleaned_text (dict_get c "email")
  | _ => None
  end.

(** The emails of the contact points of a block, in order. *)
Definition contact_emails (item : dict) : list string :=
  omap contact_email (_ensure_list (dict_get item "contactPoint")).

(** A contact point whose telephone and email [_clean_text] accepts; a
    contact point that is not an object is not looked into. *)
Definition contact_well_typed (contact : json) : bool :=
  match contact with
  | JDict c => texty (dict_get c "telephone") && texty (dict_get c "email")
  | _ => true
  end.

(** Every value [extract_from_schema] hands to [_clean_text] is [null] or a
    string.  The top-level email is looked at only when no contact point
    gave an email. *)
Definition well_typed (item : dict) : bool :=
  texty (dict_get item "name")
  && forallb texty (_ensure_list (dict_get item "telephone"))
  && forallb contact_well_typed (_ensure_list (dict_get item "contactPoint"))
  && match dict_get item "address" with
     | JDict address =>
         texty (dict_get address "streetAddress")
         && texty (dict_get address "postalCode")
         && texty (dict_get address "addressLocality")
     | _ => true
     end
  && match contact_emails item with
     | [] => texty (dict_get item "email")
     | _ :: _ => true
     end.

(** The part of the address of a block under [key], if the address is an
    object. *)
Definition address_part (item : dict) (key : string) : option string :=
  match dict_get item "address" with
  | JDict address => cleaned_text (dict_get address key)
  | _ => None
  end.

(** The record of a block, field by field. *)
Definition schema_profile (item : dict) : Profile :=
  let phones := dedup (discovered_phones item) in
  mkProfile
    (cleaned_text (dict_get item "name"))
    (phones !! 0%nat)
    (phones !! 1%nat)
    (address_part item "postalCode")
    (address_part item "addressLocality")
    (address_part item "streetAddress")
    (match contact_emails item with
     | e :: _ => Some e
     | [] => cleaned_text (dict_get item "email")
     end)
    None.

(** The first non-empty value of a list, if any. *)
Definition first_truthy (vs : list (option string)) : option string :=
  default None (List.find Py.truthy vs).

(** The fields the extractors fill: all but the source URL. *)
Definition extracted_field (f : field) : Prop := f ≠ f_profile_url.

(** ** The sources of a page, in priority order *)

(** The record tier 1 leaves when every block is well typed. *)
Definition tier1_record (soup : Soup) (url : string) : Profile :=
  fold_left merge_profiles (map schema_profile (_iter_schema_candidates soup))
            (Profile_of_url url).

(** The test of [parse_profile_page] before the fallback. *)
Definition needs_fallback (r : Profile) : bool :=
  negb (Py.truthy (name r)) || negb (Py.truthy (phone r)).

(** The candidates merged into the record of a page: the blocks in document
    order, then the micro-attributes when the fallback runs. *)
Definition page_sources (soup : Soup) (url : string) : list Profile :=
  map schema_profile (_iter_schema_candidates soup)
  ++ if needs_fallback (tier1_record soup url) then [extract_microdata soup] else [].

(** ** The sitemap graph *)

(** The two tests of the loop of [expand_sitemap] on a location. *)
Definition has_sitemap_suffix (loc : string) : bool :=
  Py.endswith (Py.lower loc) ".xml" || Py.endswith (Py.lower loc) ".xml.gz".

(** A location the walker follows as a nested sitemap. *)
Definition is_sitemap_loc (loc : string) : bool :=
  Py.nonempty loc && has_sitemap_suffix loc.

(** A location the walker keeps as a profile URL. *)
Definition is_profile_loc (loc : string) : bool :=
  Py.nonempty loc && negb (has_sitemap_suffix loc)
  && Py.contains (Py.lower loc) PROFILE_FRAGMENT.

(** The download of [u] succeeds. *)
Definition fetch_ok (web : gmap string (result xml_text)) (u : string) : Prop :=
  ∃ body, fetch_response web u = Ok body.

(** The sitemap at [u] downloads and lists the location [loc]. *)
Definition lists (web : gmap string (result xml_text)) (u loc : string) : Prop :=
  ∃ body, fetch_response web u = Ok body ∧ loc ∈ (extract_loc_values body).1.

(** The sitemap at [u] points to the nested sitemap [v]. *)
Definition links (web : gmap string (result xml_text)) (u v : string) : Prop :=
  lists web u v ∧ is_sitemap_loc v = true.

(** The sitemaps reached from [seed] by following nested sitemaps. *)
Definition reachable (web : gmap string (result xml_text)) (seed u : string)
  : Prop :=
  rtc (links web) seed u.

(** What a returned expansion of [url] has done: the visit set has grown by
    the sitemaps downloaded, every nested sitemap of a downloaded sitemap is in
    the set, the downloaded sitemaps are reached from [url], and the URLs
    returned are the profile locations the downloaded sitemaps list. *)
Definition explored (web : gmap string (result xml_text)) (url : string)
    (seen seen' : gset string) (found : list string) (evs : list event) : Prop :=
  seen' = seen ∪ list_to_set (fetched evs) ∧
  url ∈ seen' ∧
  (∀ u v, u ∈ fetched evs → links web u v → v ∈ seen') ∧
  (∀ u, u ∈ fetched evs → reachable web url u) ∧
  (∀ p, p ∈ found ↔
        ∃ u, u ∈ fetched evs ∧ lists web u p ∧ is_profile_loc p = true).

(** The same for the loop over the locations [locs] of one sitemap, entered
    with the URLs [acc] already found. *)
Definition explored_locs (web : gmap string (result xml_text))
    (locs acc : list string) (seen seen' : gset string) (found : list string)
    (evs : list event) : Prop :=
  seen' = seen ∪ list_to_set (fetched evs) ∧
  (∀ loc, loc ∈ locs → is_sitemap_loc loc = true → loc ∈ seen') ∧
  (∀ u v, u ∈ fetched evs → links web u v → v ∈ seen') ∧
  (∀ u, u ∈ fetched evs →
        ∃ loc, loc ∈ locs ∧ is_sitemap_loc loc = true ∧ reachable web loc u) ∧
  (∀ p, p ∈ found ↔
        p ∈ acc ∨ (p ∈ locs ∧ is_profile_loc p = true) ∨
        ∃ u, u ∈ fetched evs ∧ lists web u p ∧ is_profile_loc p = true).

(** Every download of an expansion succeeded, or the expansion raised what
    its last download raised and every download before it succeeded. *)
Definition all_but_failure (web : gmap string (result xml_text))
    (res : result (list string)) (evs : list event) : Prop :=
  match res with
  | Ok _ => Forall (fetch_ok web) (fetched evs)
  | Raise e =>
      ∃ us u, fetched evs = us ++ [u] ∧ Forall (fetch_ok web) us ∧
              fetch_response web u = Raise e
  end.

(** The sitemaps downloaded when [seed] is expanded on its own. *)
Definition seed_downloads (web : gmap string (result xml_text)) (seed : string)
  : list string :=
  match expand_sitemap (S (size web)) web seed None initial_state with
  | Some (_, σ) => fetched (trace σ)
  | None => []
  end.

(** The stores the sample expansions end in. *)
Definition store_after (web : gmap string (result xml_text)) (seed : string)
  : state :=
  match expand_sitemap (S (size web)) web seed None initial_state with
  | Some (_, σ) => σ
  | None => initial_state
  end.

(** Every sitemap reached from [seed] downloads: the seeds whose expansion
    returns. *)
Definition seed_complete (web : gmap string (result xml_text)) (seed : string)
  : Prop :=
  ∀ u, reachable web seed u → fetch_ok web u.

(** [p] is a profile location listed by a sitemap reached from [seed]. *)
Definition profile_below (web : gmap string (result xml_text)) (seed p : string)
  : Prop :=
  ∃ u, reachable web seed u ∧ lists web u p ∧ is_profile_loc p = true.

(** A profile URL a run has discovered: one of the sitemaps it downloaded
    lists it as a profile location. *)
Definition discovered (web : gmap string (result xml_text)) (evs : list event)
    (p : string) : Prop :=
  ∃ u, u ∈ fetched evs ∧ lists web u p ∧ is_profile_loc p = true.

(** * The rest of the program

    The export, the per-thread sessions and the run coordinator.  These
    definitions stand after the ones above because they use them. *)

(** ** Export *)

(** [Profile.to_ordered_dict]: a [dict], as the list of its items. *)
Definition to_ordered_dict (p : Profile) : list (string * option string) :=
  [("Name", name p); ("Phone", phone p); ("Phone 2", phone2 p);
   ("ZIP", zip_code p); ("City", city p); ("Street", street p);
   ("Email", email p); ("Profile URL", profile_url p)].

(** The [columns] argument of [export_profiles]. *)
Definition export_columns : list string :=
  ["Name"; "Phone"; "Phone 2"; "ZIP"; "City"; "Street"; "Email"; "Profile URL"].

(** [row.get(column)] on the items of a row: [None] when the row has no such
    key, which leaves the cell of the frame without a value. *)
Fixpoint row_get (row : list (string * option string)) (column : string)
  : option (option string) :=
  match row with
  | [] => None
  | (k, v) :: row' => if String.eqb k column then Some v else row_get row' column
  end.

(** [pd.DataFrame(rows, columns=columns)]: one line per row, one cell per
    column, looked up in the row by the column's name. *)
Definition DataFrame (rows : list (list (string * option string)))
    (columns : list string) : list (list (option (option string))) :=
  map (fun row => map (row_get row) columns) rows.

(** [export_profiles(profiles, output_path)]: the path written to and the
    frame [to_excel] is called on. *)
Definition export_profiles (profiles : list Profile) (output_path : string)
  : string * list (list (option (option string))) :=
  let rows := map to_ordered_dict profiles in
  (output_path, DataFrame rows export_columns).

(** ** Per-thread sessions *)

Definition DEFAULT_HEADERS : list (string * string) :=
  [("User-Agent",
    "Mozilla/5.0 (Windows NT 10.0; Win64; x64) AppleWebKit/537.36 (KHTML, like Gecko) Chrome/124.0.0.0 Safari/537.36");
   ("Accept",
    "text/html,application/xhtml+xml,application/xml;q=0.9,image/avif,image/webp,image/apng,*/*;q=0.8");
   ("Accept-Language", "es-ES,es;q=0.9,en;q=0.8");
   ("Connection", "keep-alive")].

(** A [requests.Session]: which object it is (the sessions made are numbered
    in the order of their making) and the headers set on it. *)
Record Session : Type := mkSession {
  session_number : nat;
  session_headers : list (string * string)
}.

(** [THREAD_LOCAL]: for each thread (by number) its [session] attribute, if
    set; and how many times [requests.Session()] has been called. *)
Record Threads : Type := mkThreads {
  thread_local : gmap nat Session;
  sessions_made : nat
}.

(** [get_thread_session()] called on thread [tid]. *)
Definition get_thread_session (tid : nat) (st : Threads) : Session * Threads :=
  match thread_local st !! tid with
  | Some session => (session, st)
  | None =>
      let session := mkSession (sessions_made st) DEFAULT_HEADERS in
      (session,
       mkThreads (<[tid := session]> (thread_local st)) (S (sessions_made st)))
  end.

(** A sequence of calls, each by the thread named; the sessions returned. *)
Fixpoint get_thread_sessions (tids : list nat) (st : Threads)
  : list Session * Threads :=
  match tids with
  | [] => ([], st)
  | tid :: rest =>
      let '(session, st) := get_thread_session tid st in
      let '(sessions, st) := get_thread_sessions rest st in
      (session :: sessions, st)
  end.

Definition no_threads : Threads := mkThreads ∅ 0.

(** ** The run coordinator *)

(** The parsed command line. *)
Record Args : Type := mkArgs {
  sitemaps : list string;
  output : string;
  limit : option Z;
  max_workers : Z;
  min_delay : Q;
  max_delay : Q
}.

(** [l[:stop]] for an integer [stop]: a negative [stop] counts from the end. *)
Definition slice_to (l : list string) (stop : Z) : list string :=
  if (0 <=? stop)%Z then take (Z.to_nat stop) l
  else take (length l - Z.to_nat (- stop)) l.

Inductive main_message : Type :=
| mm_initial_sitemaps (urls : list string)  (* "Sitemaps iniciales" *)
| mm_limit (n : nat)                        (* "Procesando solo ... por --limit" *)
| mm_no_urls                                (* "No se detectaron URLs de perfiles" *)
| mm_starting (n : nat)                     (* "Comenzando la descarga de" *)
| mm_unhandled (url : string)               (* "Error no controlado en" *)
| mm_progress (n : nat)                     (* "Perfiles procesados" *)
| mm_no_profiles                            (* "No se pudo obtener ninguna ficha" *)
| mm_excel (path : string).                 (* "Archivo Excel generado" *)

(** What the main thread does, in order.  The events of the workers are left
    out: they happen on other threads, between a task's submission and the
    end of the pool. *)
Inductive main_event : Type :=
| me_walker (ev : event)            (* an event of [collect_profile_urls] *)
| me_log (lvl : level) (msg : main_message)
| me_submit (url : string)          (* [executor.submit(fetch_profile, url, ...)] *)
| me_to_excel (path : string) (frame : list (list (option (option string)))).

(** How [main] ends: it returns, [parser.error] exits the process, or the
    [ValueError] of [ThreadPoolExecutor] for a pool without workers leaves it. *)
Inductive exit : Type :=
| exit_return
| exit_parser_error
| exit_value_error.

(** The loop of [main] over the futures as they complete; [completed] lists
    their URLs in completion order, [index] counts from 1.  Each task is
    taken past its pause: [positive_float] refuses negative delays, so for
    the finite bounds [main] passes the waiting time drawn is not negative
    and the pause returns. *)
Fixpoint gather (pages : gmap string (result Soup)) (delay_range : Q * Q)
    (completed : list string) (index : nat) (profiles : list Profile)
  : list Profile * list main_event :=
  match completed with
  | [] => (profiles, [])
  | url :: rest =>
      match (fetch_profile pages url delay_range).1 with
      | Raise exc =>
          let '(profiles, evs) := gather pages delay_range rest (S index) profiles in
          (profiles, me_log WARNING (mm_unhandled url) :: evs)
      | Ok profile =>
          let profiles :=
            match profile with
            | Some p => profiles ++ [p]
            | None => profiles
            end in
          let progress :=
            if (index mod 100 =? 0)%nat
            then [me_log INFO (mm_progress index)] else [] in
          let '(profiles, evs) := gather pages delay_range rest (S index) profiles in
          (profiles, progress ++ evs)
      end
  end.

(** [main()] from the parsed arguments on.  [web] holds the sitemaps and
    [pages] the profile pages; [schedule] gives the order in which the
    submitted tasks complete; [depth] bounds the walker as before. *)
Definition main (depth : nat) (args : Args)
    (web : gmap string (result xml_text)) (pages : gmap string (result Soup))
    (schedule : list string → list string)
  : option (exit * list main_event) :=
  if Qlt_le_dec (max_delay args) (min_delay args)
  then Some (exit_parser_error, [])
  else
    '(profiles_urls, σ) ← collect_profile_urls depth web (sitemaps args) initial_state;
    let evs :=
      me_log INFO (mm_initial_sitemaps (sitemaps args))
      :: map me_walker (trace σ) in
    let '(profiles_urls, evs) :=
      match limit args with
      | Some n =>
          let profiles_urls := slice_to profiles_urls n in
          (profiles_urls, evs ++ [me_log INFO (mm_limit (length profiles_urls))])
      | None => (profiles_urls, evs)
      end in
    match profiles_urls with
    | [] => Some (exit_return, evs ++ [me_log ERROR mm_no_urls])
    | _ :: _ =>
        let evs := evs ++ [me_log INFO (mm_starting (length profiles_urls))] in
        if (max_workers args <=? 0)%Z then Some (exit_value_error, evs)
        else
          let evs := evs ++ map me_submit profiles_urls in
          let '(profiles, loop) :=
            gather pages (min_delay args, max_delay args)
                   (schedule profiles_urls) 1 [] in
          let evs := evs ++ loop in
          match profiles with
          | [] => Some (exit_return, evs ++ [me_log ERROR mm_no_profiles])
          | _ :: _ =>
              let '(path, frame) := export_profiles profiles (output args) in
              Some (exit_return,
                    evs ++ [me_to_excel path frame; me_log INFO (mm_excel path)])
          end
    end.

(** ** The run, as the statements see it *)

(** The URLs submitted to the pool, in order. *)
Definition submitted (evs : list main_event) : list string :=
  omap (fun ev => match ev with me_submit url => Some url | _ => None end) evs.

(** The files written: path and frame. *)
Definition exported (evs : list main_event)
  : list (string * list (list (option (option string)))) :=
  omap (fun ev => match ev with
                  | me_to_excel path frame => Some (path, frame)
                  | _ => None
                  end) evs.

(** The record the worker of a URL returns, if it returns one. *)
Definition worker_record (pages : gmap string (result Soup))
    (delay_range : Q * Q) (url : string) : option Profile :=
  match (fetch_profile pages url delay_range).1 with
  | Ok (Some p) => Some p
  | _ => None
  end.

(** The line of the exported frame for a record: its eight fields, in the
    order of their declaration. *)
Definition frame_line (p : Profile) : list (option (option string)) :=
  map (fun f => Some (getattr p f)) fields.

Module SampleRun.

Definition args : Args :=
  mkArgs [SampleSitemaps.index] "out.xlsx" (Some 1%Z) 8 (3 # 10) (8 # 10).

(** The page of [anna] is a page with a name and a telephone; the page of
    [bert] cannot be reached. *)
Definition pages : gmap string (result Soup) :=
  <[SampleSitemaps.anna := Ok Samples.john_page]> ∅.

Definition anna : Profile :=
  mkProfile (Some "John Roe") (Some "+49 9 8 7") None None None None None
            (Some SampleSitemaps.anna).

(** The same run without a limit. *)
Definition unlimited : Args :=
  mkArgs [SampleSitemaps.index] "out.xlsx" None 8 (3 # 10) (8 # 10).

End SampleRun.

(** The sessions made so far are numbered below the count, no two threads
    hold the same one, and the count is the number of threads that hold
    one. *)
Definition threads_inv (st : Threads) : Prop :=
  (∀ tid s, thread_local st !! tid = Some s →
            (session_number s < sessions_made st)%nat) ∧
  (∀ t1 t2 s1 s2, thread_local st !! t1 = Some s1 → thread_local st !! t2 = Some s2 →
                  session_number s1 = session_number s2 → t1 = t2) ∧
  sessions_made st = size (dom (thread_local st)).

(** * Properties *)

(** ** Python strings *)

Example strip_both_ends : Py.strip "  +49 1 2 3 " = "+49 1 2 3".
Proof. reflexivity. Qed.

Example strip_blank : _clean_text (Some "   ") = None.
Proof. reflexivity. Qed.

Example lower_upper : Py.lower "HTTPS://A.EXAMPLE/Sitemap.XML" = "https://a.example/sitemap.xml".
Proof. reflexivity. Qed.

Example endswith_suffix :
  Py.endswith "https://a.example/sitemap.xml.gz" ".xml.gz" = true ∧
  Py.endswith "https://a.example/sitemap.xml.gz" ".xml" = false.
Proof. split; reflexivity. Qed.

Example contains_fragment :
  Py.contains "https://a.example/vermoegensberater/anna" PROFILE_FRAGMENT = true ∧
  Py.contains "https://a.example/about" PROFILE_FRAGMENT = false.
Proof. split; reflexivity. Qed.

Example after_first_colon_mailto :
  after_first_colon "mailto:jane@a.example" = "jane@a.example".
Proof. reflexivity. Qed.

(** ** The result monad *)

Lemma bind_Ok_inv {A B} (m : result A) (k : A → result B) b :
  m ≫= k = Ok b → ∃ a, m = Ok a ∧ k a = Ok b.
Proof. destruct m; simpl; [eauto | discriminate]. Qed.

Ltac inv_bind H :=
  let a := fresh "a" in
  let Ha := fresh "Ha" in
  apply bind_Ok_inv in H as (a & Ha & H).

(** An event that differs from each of finitely many listed ones. *)
Ltac not_among :=
  let H := fresh "H" in
  rewrite ?elem_of_app, ?elem_of_cons, ?elem_of_nil; intros H;
  repeat (destruct H as [H|H]); try discriminate H; try done.

(** ** Merging *)

Section Merge.

Lemma profile_ext (p q : Profile) :
  (∀ f, getattr p f = getattr q f) → p = q.
Proof.
  intros H. destruct p, q.
  pose proof (H f_name); pose proof (H f_phone); pose proof (H f_phone2);
    pose proof (H f_zip_code); pose proof (H f_city); pose proof (H f_street);
    pose proof (H f_email); pose proof (H f_profile_url).
  simpl in *. congruence.
Qed.

Lemma getattr_setattr p f g v :
  getattr (setattr p g v) f = if decide (f = g) then v else getattr p f.
Proof. destruct f, g; reflexivity. Qed.

Lemma getattr_merge_step base g v f :
  getattr (merge_step base (g, v)) f =
  if decide (f = g) then first_wins (getattr base g) v else getattr base f.
Proof.
  unfold merge_step, first_wins.
  destruct (Py.truthy v && negb (Py.truthy (getattr base g))) eqn:E.
  - apply getattr_setattr.
  - case_decide; congruence.
Qed.

(** The loop over the snapshot touches each field once. *)
Lemma getattr_fold_merge_step (extra : Profile) (fs : list field) base f :
  NoDup fs →
  getattr (fold_left merge_step (map (fun g => (g, getattr extra g)) fs) base) f =
  if decide (f ∈ fs) then first_wins (getattr base f) (getattr extra f)
  else getattr base f.
Proof.
  intros Hnd. revert base. induction Hnd as [|g fs Hg Hnd IH]; intros base.
  - simpl. destruct (decide (f ∈ [])) as [H|H]; [by apply elem_of_nil in H | done].
  - cbn [map fold_left]. rewrite IH, !getattr_merge_step.
    destruct (decide (f = g)) as [->|Hne].
    + rewrite decide_False by done. rewrite decide_True by left. done.
    + destruct (decide (f ∈ fs)) as [Hin|Hin].
      * rewrite decide_True by (by right). done.
      * rewrite decide_False; [done|].
        intros [?|?]%elem_of_cons; done.
Qed.

Lemma fields_NoDup : NoDup fields.
Proof.
  unfold fields.
  repeat (apply NoDup_cons; split;
          [rewrite ?elem_of_cons, elem_of_nil; intuition discriminate|]).
  apply NoDup_nil_2.
Qed.

Lemma fields_all f : f ∈ fields.
Proof. unfold fields. rewrite !elem_of_cons. destruct f; tauto. Qed.

Lemma getattr_merge_profiles base extra f :
  getattr (merge_profiles base extra) f =
  first_wins (getattr base f) (getattr extra f).
Proof.
  unfold merge_profiles, asdict.
  rewrite getattr_fold_merge_step by apply fields_NoDup.
  by rewrite decide_True by apply fields_all.
Qed.

Lemma first_wins_truthy old new :
  Py.truthy old = true → first_wins old new = old.
Proof. unfold first_wins. intros ->. by rewrite andb_false_r. Qed.

Lemma first_wins_falsy_new old new :
  Py.truthy new = false → first_wins old new = old.
Proof. unfold first_wins. by intros ->. Qed.

Lemma first_wins_self v : first_wins v v = v.
Proof. unfold first_wins. by destruct (Py.truthy v). Qed.

Lemma merge_keeps_truthy base extra f :
  Py.truthy (getattr base f) = true →
  getattr (merge_profiles base extra) f = getattr base f.
Proof. intros H. rewrite getattr_merge_profiles. by apply first_wins_truthy. Qed.

Lemma merges_keep_truthy extras base f :
  Py.truthy (getattr base f) = true →
  getattr (fold_left merge_profiles extras base) f = getattr base f.
Proof.
  revert base. induction extras as [|e extras IH]; intros base H; [done|].
  simpl. rewrite IH; rewrite merge_keeps_truthy; done.
Qed.

Lemma merge_url_of_candidate base extra :
  profile_url extra = None →
  profile_url (merge_profiles base extra) = profile_url base.
Proof.
  intros H. change (getattr (merge_profiles base extra) f_profile_url
                    = getattr base f_profile_url).
  rewrite getattr_merge_profiles. apply first_wins_falsy_new. simpl.
  by rewrite H.
Qed.

End Merge.

(** ** What the extractors return *)

Lemma extract_from_schema_inv item p :
  extract_from_schema item = Ok p →
  ∃ nm tels0 tels em,
    _clean_text_json (dict_get item "name") = Ok nm ∧
    foldM telephone_step [] (_ensure_list (dict_get item "telephone")) = Ok tels0 ∧
    foldM contact_step (tels0, None) (_ensure_list (dict_get item "contactPoint"))
      = Ok (tels, em) ∧
    name p = nm ∧ phone p = tels !! 0%nat ∧ phone2 p = tels !! 1%nat ∧
    profile_url p = None.
Proof.
  unfold extract_from_schema. intros H.
  inv_bind H. inv_bind H. inv_bind H. destruct a1 as [tels em].
  inv_bind H.
  exists a, a0, tels, em. split; [done|]. split; [done|]. split; [done|].
  assert (name a1 = a ∧ phone a1 = tels !! 0%nat ∧ phone2 a1 = tels !! 1%nat
          ∧ profile_url a1 = None) as (Hn & Hp & Hp2 & Hu).
  { destruct (dict_get item "address");
      repeat (inv_bind Ha2); injection Ha2 as <-;
      destruct tels as [|t0 [|t1 tels]]; simpl; done. }
  destruct (negb (Py.truthy (email a1))).
  - inv_bind H. injection H as <-. destruct a1; simpl in *; done.
  - injection H as <-. done.
Qed.

Lemma extract_from_schema_url item p :
  extract_from_schema item = Ok p → profile_url p = None.
Proof.
  intros H. by apply extract_from_schema_inv in H as (?&?&?&?&?&?&?&?&?&?&?).
Qed.

Lemma extract_microdata_url soup : profile_url (extract_microdata soup) = None.
Proof.
  unfold extract_microdata.
  repeat match goal with
         | |- context [match ?x with _ => _ end] => destruct x
         end; reflexivity.
Qed.

(** ** The page parser *)

Lemma merge_schemas_url cands r r' evs :
  merge_schemas cands r = (Ok r', evs) → profile_url r' = profile_url r.
Proof.
  revert r evs. induction cands as [|d cands IH]; intros r evs H; simpl in H.
  - by injection H as <- <-.
  - destruct (extract_from_schema d) as [e|] eqn:He; [|discriminate].
    destruct (merge_schemas cands (merge_profiles r e)) as [r1 evs1] eqn:Hm.
    injection H as -> <-. apply IH in Hm. rewrite Hm.
    apply merge_url_of_candidate. by eapply extract_from_schema_url.
Qed.

Lemma merge_schemas_no_microdata cands r :
  ev_extract_microdata ∉ (merge_schemas cands r).2.
Proof.
  revert r. induction cands as [|d cands IH]; intros r; simpl.
  - apply not_elem_of_nil.
  - destruct (extract_from_schema d) as [e|]; simpl.
    + specialize (IH (merge_profiles r e)).
      destruct (merge_schemas cands (merge_profiles r e)) as [r1 evs1].
      simpl in *. rewrite elem_of_cons. intros [?|?]; [discriminate | done].
    + rewrite elem_of_cons, elem_of_nil. intros [?|?]; [discriminate | done].
Qed.

(** The accumulated record after tier 1 is the initial record merged with the
    candidates in order. *)
Lemma merge_schemas_fold cands r r' evs :
  merge_schemas cands r = (Ok r', evs) →
  ∃ extras, Forall2 (fun d e => extract_from_schema d = Ok e) cands extras ∧
            r' = fold_left merge_profiles extras r.
Proof.
  revert r evs. induction cands as [|d cands IH]; intros r evs H; simpl in H.
  - injection H as <- <-. exists []. split; [constructor | done].
  - destruct (extract_from_schema d) as [e|] eqn:He; [|discriminate].
    destruct (merge_schemas cands (merge_profiles r e)) as [r1 evs1] eqn:Hm.
    injection H as -> <-. apply IH in Hm as (extras & HF & ->).
    exists (e :: extras). split; [by constructor | done].
Qed.

Lemma parse_profile_page_inv soup url p evs :
  parse_profile_page soup url = (Ok p, evs) →
  ∃ r evs1,
    merge_schemas (_iter_schema_candidates soup) (Profile_of_url url) = (Ok r, evs1) ∧
    ((Py.truthy (name r) && Py.truthy (phone r) = false ∧
      p = merge_profiles r (extract_microdata soup) ∧
      evs = evs1 ++ [ev_extract_microdata])
     ∨ (Py.truthy (name r) && Py.truthy (phone r) = true ∧ p = r ∧ evs = evs1)).
Proof.
  unfold parse_profile_page. fold (Profile_of_url url).
  destruct (merge_schemas _ _) as [[r|e] evs1]; [|discriminate].
  intros H. exists r, evs1. split; [done|].
  destruct (Py.truthy (name r)), (Py.truthy (phone r)); simpl in *;
    injection H as <- <-; auto.
Qed.

Lemma parse_profile_page_url soup url p evs :
  parse_profile_page soup url = (Ok p, evs) → profile_url p = Some url.
Proof.
  intros (r & evs1 & Hm & H)%parse_profile_page_inv.
  apply merge_schemas_url in Hm. simpl in Hm.
  destruct H as [(_ & -> & _)|(_ & -> & _)]; [|done].
  rewrite merge_url_of_candidate; [done | apply extract_microdata_url].
Qed.

(** ** C1 and C9: the precedence rule *)

(** C1.  A merge changes a field of the record exactly when the field is
    empty or unset and the candidate's value is non-empty, and then to the
    candidate's value; so no sequence of later merges changes a field that
    holds a non-empty value; and the record a page is parsed into carries the
    URL it was created with, whatever the tier-1 blocks and the tier-2
    fallback merged into it. *)
Theorem merge_fills_only_empty_fields :
  (∀ base extra f,
     getattr (merge_profiles base extra) f =
     if Py.truthy (getattr extra f) && negb (Py.truthy (getattr base f))
     then getattr extra f else getattr base f)
  ∧ (∀ base extras f,
       Py.truthy (getattr base f) = true →
       getattr (fold_left merge_profiles extras base) f = getattr base f)
  ∧ (∀ base extra,
       Py.truthy (profile_url base) = true →
       profile_url (merge_profiles base extra) = profile_url base)
  ∧ (∀ soup url p evs,
       parse_profile_page soup url = (Ok p, evs) → profile_url p = Some url).
Proof.
  split; [|split; [|split]].
  - intros. apply getattr_merge_profiles.
  - intros. by apply merges_keep_truthy.
  - intros base extra H. by apply (merge_keeps_truthy base extra f_profile_url).
  - apply parse_profile_page_url.
Qed.

(** C9.  Merging with the empty candidate changes nothing, merging a record
    with a copy of itself changes nothing, and merging the same candidate a
    second time changes nothing. *)
Theorem merge_idempotent :
  (∀ base, merge_profiles base Profile_new = base)
  ∧ (∀ base, merge_profiles base base = base)
  ∧ (∀ base extra,
       merge_profiles (merge_profiles base extra) extra = merge_profiles base extra).
Proof.
  split; [|split].
  - intros base. apply profile_ext. intros f. rewrite getattr_merge_profiles.
    apply first_wins_falsy_new. by destruct f.
  - intros base. apply profile_ext. intros f. rewrite getattr_merge_profiles.
    apply first_wins_self.
  - intros base extra. apply profile_ext. intros f.
    rewrite !getattr_merge_profiles. unfold first_wins.
    destruct (Py.truthy (getattr extra f)) eqn:E1,
             (Py.truthy (getattr base f)) eqn:E2; simpl; rewrite ?E1, ?E2; done.
Qed.

Lemma merge_fills_only_empty_fields_witness :
  getattr (fold_left merge_profiles [Samples.john; Profile_new] Samples.jane) f_name
    = Some "Jane Doe"
  ∧ profile_url (merge_profiles Samples.jane Samples.john) = Some Samples.url
  ∧ profile_url Samples.jane = Some Samples.url.
Proof.
  destruct merge_fills_only_empty_fields as (_ & Hkeep & Hurl & Hparse).
  split; [|split].
  - apply (Hkeep Samples.jane [Samples.john; Profile_new] f_name). reflexivity.
  - apply (Hurl Samples.jane Samples.john). reflexivity.
  - apply (Hparse Samples.jane_page Samples.url Samples.jane
                  [ev_extract_from_schema Samples.jane_block]).
    vm_compute. reflexivity.
Defined.

(** The two pages of the specification's examples. *)
Example parse_jane :
  parse_profile_page Samples.jane_page Samples.url
  = (Ok Samples.jane, [ev_extract_from_schema Samples.jane_block]).
Proof. vm_compute. reflexivity. Qed.

Example parse_john :
  parse_profile_page Samples.john_page Samples.url
  = (Ok Samples.john, [ev_extract_microdata]).
Proof. vm_compute. reflexivity. Qed.

Lemma merge_idempotent_witness :
  merge_profiles Samples.jane Profile_new = Samples.jane
  ∧ merge_profiles Samples.jane Samples.jane = Samples.jane
  ∧ merge_profiles (merge_profiles Samples.john Samples.jane) Samples.jane
    = merge_profiles Samples.john Samples.jane.
Proof.
  destruct merge_idempotent as (Hempty & Hself & Htwice).
  split; [apply Hempty | split; [apply Hself | apply Htwice]].
Defined.

(** ** C2: phones *)

Section Phones.

Lemma dedup_filter (P : string → Prop) `{!∀ x, Decision (P x)} l :
dedup (filter P l) = filter P (dedup l).
Proof.
induction l as [|x l IH]; [done|].
destruct (decide (P x)) as [HP|HP].
- rewrite filter_cons_True by done. simpl.
  rewrite filter_cons_True by done. f_equal.
  rewrite IH, !list_filter_filter. apply list_filter_iff. tauto.
- rewrite filter_cons_False by done. simpl.
  rewrite filter_cons_False by done.
  rewrite IH, list_filter_filter. apply list_filter_iff.
  intros y. split; [|tauto]. intros Hy. split; [done|]. congruence.
Qed.

Lemma elem_of_dedup x l : x ∈ dedup l ↔ x ∈ l.
Proof.
induction l as [|y l IH]; [done|]. simpl.
rewrite !elem_of_cons, list_elem_of_filter, IH.
destruct (decide (x = y)); tauto.
Qed.

Lemma NoDup_dedup l : NoDup (dedup l).
Proof.
induction l as [|y l IH]; simpl; [constructor|].
apply NoDup_cons. split.
- rewrite list_elem_of_filter. tauto.
- by apply NoDup_filter.
Qed.

Lemma _clean_text_nonempty v s : _clean_text v = Some s → Py.nonempty s = true.
Proof.
destruct v as [t|]; simpl; [|done].
destruct (Py.nonempty (Py.strip t)) eqn:E; [|done]. by intros [= <-].
Qed.

Lemma fold_add_phone (cs : list (option string)) acc :
(∀ s, Some s ∈ cs → Py.nonempty s = true) →
fold_left add_phone cs acc
= acc ++ dedup (filter (fun y => y ∉ acc) (omap id cs)).
Proof.
revert acc. induction cs as [|c cs IH]; intros acc Hne.
- simpl. by rewrite app_nil_r.
- assert (∀ s, Some s ∈ cs → Py.nonempty s = true) as Hne'.
  { intros s Hs. apply Hne. by right. }
  destruct c as [p|]; simpl; [|by apply IH].
  rewrite (Hne p) by left. unfold Py.mem. simpl.
  destruct (decide (p ∈ acc)) as [Hin|Hin].
  + rewrite bool_decide_eq_true_2 by done. simpl.
    rewrite IH by done. rewrite filter_cons_False by tauto. done.
  + rewrite bool_decide_eq_false_2 by done. simpl.
    rewrite IH by done. rewrite filter_cons_True by done. simpl.
    rewrite <- app_assoc. simpl. do 2 f_equal.
    rewrite <- dedup_filter, list_filter_filter. f_equal.
    apply list_filter_iff. intros y. rewrite elem_of_app, list_elem_of_singleton.
    tauto.
Qed.

Lemma _clean_text_json_phone_value v c :
_clean_text_json v = Ok c → c = phone_value v.
Proof. destruct v; simpl; intros [= <-]; done. Qed.

Lemma foldM_telephone_step js acc tels :
foldM telephone_step acc js = Ok tels →
tels = fold_left add_phone (map phone_value js) acc.
Proof.
revert acc. induction js as [|j js IH]; intros acc H; simpl in H.
- by injection H as <-.
- inv_bind H. unfold telephone_step in Ha. inv_bind Ha. injection Ha as <-.
  apply _clean_text_json_phone_value in Ha0 as ->. simpl. by apply IH.
Qed.

Lemma foldM_contact_step js acc em tels em' :
foldM contact_step (acc, em) js = Ok (tels, em') →
tels = fold_left add_phone (map contact_phone js) acc.
Proof.
revert acc em. induction js as [|j js IH]; intros acc em H; simpl in H.
- by injection H as <- <-.
- inv_bind H. destruct a as [acc1 em1]. apply IH in H as ->. simpl. f_equal.
  destruct j; simpl in Ha; try (by injection Ha as <- <-).
  inv_bind Ha. inv_bind Ha. injection Ha as <- <-.
  by apply _clean_text_json_phone_value in Ha0 as ->.
Qed.

Lemma phone_values_nonempty {A} (f : A → option string) (l : list A) s :
(∀ x t, f x = Some t → Py.nonempty t = true) →
Some s ∈ map f l → Py.nonempty s = true.
Proof.
intros Hf Hs. apply list_elem_of_fmap in Hs as (x & Hx & _). eauto.
Qed.

Lemma phone_value_nonempty v t : phone_value v = Some t → Py.nonempty t = true.
Proof. destruct v; try done. apply _clean_text_nonempty. Qed.

Lemma contact_phone_nonempty v t : contact_phone v = Some t → Py.nonempty t = true.
Proof. destruct v; try done. apply phone_value_nonempty. Qed.

Lemma omap_id_map {A} (f : A → option string) (l : list A) :
omap id (map f l) = omap f l.
Proof.
induction l as [|x l IH]; [done|]. csimpl. rewrite IH. by destruct (f x).
Qed.

Lemma filter_not_in_nil (l : list string) : filter (fun y => y ∉ []) l = l.
Proof.
induction l as [|x l IH]; [done|].
rewrite filter_cons_True by apply not_elem_of_nil. by rewrite IH.
Qed.

(** The telephones [extract_from_schema] collects. *)
Lemma extract_from_schema_phones item p :
extract_from_schema item = Ok p →
phone p = dedup (discovered_phones item) !! 0%nat ∧
phone2 p = dedup (discovered_phones item) !! 1%nat.
Proof.
intros H. apply extract_from_schema_inv in H
  as (nm & tels0 & tels & em & _ & H1 & H2 & _ & -> & -> & _).
apply foldM_telephone_step in H1. apply foldM_contact_step in H2.
assert (tels = dedup (discovered_phones item)) as ->; [|done].
subst. rewrite <- fold_left_app.
rewrite fold_add_phone.
- simpl. by rewrite filter_not_in_nil, omap_app, !omap_id_map.
- intros s Hs. apply elem_of_app in Hs as [Hs|Hs].
  + eapply phone_values_nonempty; [apply phone_value_nonempty | done].
  + eapply phone_values_nonempty; [apply contact_phone_nonempty | done].
Qed.

Lemma fold_left_through_map {A B C} (g : C → B → C) (f : A → B) l c :
fold_left (fun acc x => g acc (f x)) l c = fold_left g (map f l) c.
Proof. revert c. induction l as [|x l IH]; intros c; simpl; [done | apply IH]. Qed.

Lemma extract_microdata_phones soup :
phone (extract_microdata soup) = dedup (discovered_phones_microdata soup) !! 0%nat ∧
phone2 (extract_microdata soup) = dedup (discovered_phones_microdata soup) !! 1%nat.
Proof.
unfold extract_microdata.
set (phones := fold_left _ (find_all_itemprop soup "telephone") []).
assert (phones = dedup (discovered_phones_microdata soup)) as Hph.
{ unfold phones, discovered_phones_microdata.
  rewrite (fold_left_through_map add_phone (fun t => _clean_text (Some t))).
  rewrite fold_add_phone.
  - simpl. by rewrite filter_not_in_nil, omap_id_map.
  - intros s Hs. eapply phone_values_nonempty; [|done].
    intros x t. apply _clean_text_nonempty. }
rewrite <- Hph. clearbody phones. clear Hph.
destruct phones as [|p0 [|p1 phones]]; simpl;
  repeat match goal with
         | |- context [match ?x with _ => _ end] => destruct x
         end; done.
Qed.

Lemma first_two_distinct (l : list string) a b :
NoDup l → l !! 0%nat = Some a → l !! 1%nat = Some b → a ≠ b.
Proof.
destruct l as [|x [|y l]]; simpl; try done.
intros Hnd [= ->] [= ->] ->. apply NoDup_cons in Hnd as [Hnd _].
apply Hnd. left.
Qed.

End Phones.

(** C2.  The primary and the secondary phone of a structured-data block are
    the first and the second entry of its phones in discovery order (top-level
    telephone values, then contact-point telephones) with duplicates dropped;
    the same holds for the micro-attribute scan over the telephone tags; what
    comes after the second entry is stored nowhere. *)
Theorem phones_first_two_in_discovery_order :
  (∀ item p,
     extract_from_schema item = Ok p →
     phone p = dedup (discovered_phones item) !! 0%nat ∧
     phone2 p = dedup (discovered_phones item) !! 1%nat)
  ∧ (∀ soup,
       phone (extract_microdata soup)
         = dedup (discovered_phones_microdata soup) !! 0%nat ∧
       phone2 (extract_microdata soup)
         = dedup (discovered_phones_microdata soup) !! 1%nat).
Proof.
  split.
  - apply extract_from_schema_phones.
  - apply extract_microdata_phones.
Qed.

Lemma phones_first_two_in_discovery_order_witness :
  phone Samples.many_phones = Some "+49 1" ∧
  phone2 Samples.many_phones = Some "+49 2".
Proof.
  apply (proj1 phones_first_two_in_discovery_order Samples.many_phones_block).
  vm_compute. reflexivity.
Defined.

Example many_phones_discovered :
  discovered_phones Samples.many_phones_block
  = ["+49 1"; "+49 1"; "+49 2"; "+49 2"; "+49 3"].
Proof. vm_compute. reflexivity. Qed.

(** ** C6: when the fallback runs *)

(** C6.  Whenever tier 1 completes, [extract_microdata] is called exactly
    when the record it leaves has no name or no primary phone; when it has
    both, the page parses to that record and no micro-attribute is read. *)
Theorem tier2_iff_name_or_phone_missing soup url r evs1 :
  merge_schemas (_iter_schema_candidates soup) (Profile_of_url url) = (Ok r, evs1) →
  ∃ p evs,
    parse_profile_page soup url = (Ok p, evs) ∧
    (ev_extract_microdata ∈ evs ↔
       Py.truthy (name r) = false ∨ Py.truthy (phone r) = false) ∧
    (Py.truthy (name r) = true → Py.truthy (phone r) = true →
       p = r ∧ evs = evs1) ∧
    (Py.truthy (name r) = false ∨ Py.truthy (phone r) = false →
       p = merge_profiles r (extract_microdata soup)).
Proof.
  intros Hm. pose proof (merge_schemas_no_microdata
    (_iter_schema_candidates soup) (Profile_of_url url)) as Hno.
  unfold parse_profile_page. fold (Profile_of_url url). rewrite Hm in *.
  simpl in Hno.
  destruct (Py.truthy (name r)) eqn:En, (Py.truthy (phone r)) eqn:Ep; simpl;
    eexists _, _; (split; [reflexivity|]);
    repeat split; try tauto; try (intros; discriminate); try (intros [?|?]; discriminate);
    try (intros _; apply elem_of_app; right; left).
Qed.

Lemma tier2_iff_name_or_phone_missing_witness :
  ∃ p evs,
    parse_profile_page Samples.jane_page Samples.url = (Ok p, evs) ∧
    (ev_extract_microdata ∈ evs ↔
       Py.truthy (name Samples.jane) = false ∨ Py.truthy (phone Samples.jane) = false) ∧
    (Py.truthy (name Samples.jane) = true → Py.truthy (phone Samples.jane) = true →
       p = Samples.jane ∧ evs = [ev_extract_from_schema Samples.jane_block]) ∧
    (Py.truthy (name Samples.jane) = false ∨ Py.truthy (phone Samples.jane) = false →
       p = merge_profiles Samples.jane (extract_microdata Samples.jane_page)).
Proof.
  apply (tier2_iff_name_or_phone_missing Samples.jane_page Samples.url).
  vm_compute. reflexivity.
Defined.

(** When a tier-1 block makes the parser raise, the fallback is not reached. *)
Lemma tier1_raises_no_fallback soup url e evs1 :
  merge_schemas (_iter_schema_candidates soup) (Profile_of_url url) = (Raise e, evs1) →
  parse_profile_page soup url = (Raise e, evs1) ∧ ev_extract_microdata ∉ evs1.
Proof.
  intros Hm. pose proof (merge_schemas_no_microdata
    (_iter_schema_candidates soup) (Profile_of_url url)) as Hno.
  unfold parse_profile_page. fold (Profile_of_url url). rewrite Hm in *. done.
Qed.

Example parse_bad_name :
  parse_profile_page Samples.bad_name_page Samples.url
  = (Raise AttributeError,
     [ev_extract_from_schema [("@type", JStr "Person"); ("name", JNumber "7")]]).
Proof. vm_compute. reflexivity. Qed.

(** ** C8: the worker *)

(** When the download raises [HTTPError] or another [RequestException],
    [fetch_profile] returns [None] and does not raise, and the last thing it
    does is log a warning that names the URL. *)
Lemma fetch_profile_failure web url delay_range e :
  fetch_response web url = Raise e →
  e = HTTPError ∨ e = RequestException →
  ∃ evs,
    fetch_profile web url delay_range = (Ok None, evs) ∧
    last evs = Some (ev_log WARNING
                       (match e with
                        | HTTPError => msg_http_error url
                        | _ => msg_network_failure url
                        end)) ∧
    (∀ item, ev_extract_from_schema item ∉ evs) ∧
    ev_extract_microdata ∉ evs.
Proof.
  intros Hf He. unfold fetch_profile. destruct delay_range as [min_delay max_delay].
  rewrite Hf.
  destruct He as [-> | ->]; destruct (Qlt_le_dec 0 max_delay); simpl;
    eexists; (split; [reflexivity|]); (split; [reflexivity|]);
    (split; [intros item|]); not_among.
Qed.

(** C8.  When the download succeeds and the page parses, [fetch_profile]
    returns the parsed record, with or without name, phone and email; the
    record carries the requested URL; a record without any of the three is
    reported at debug level and returned all the same. *)
Theorem fetched_record_always_returned web url delay_range soup p evs0 :
  fetch_response web url = Ok soup →
  parse_profile_page soup url = (Ok p, evs0) →
  ∃ evs,
    fetch_profile web url delay_range = (Ok (Some p), evs) ∧
    profile_url p = Some url ∧
    (ev_log DEBUG (msg_empty_profile url) ∈ evs ↔ no_signal p = true).
Proof.
  intros Hf Hp. unfold fetch_profile. destruct delay_range as [min_delay max_delay].
  rewrite Hf, Hp. fold (no_signal p). eexists. split; [reflexivity|].
  split; [by eapply parse_profile_page_url|].
  assert (ev_log DEBUG (msg_empty_profile url) ∉ evs0) as Hno.
  { apply parse_profile_page_inv in Hp as (r & evs1 & Hm & H).
    pose proof (merge_schemas_no_microdata
      (_iter_schema_candidates soup) (Profile_of_url url)) as _.
    assert (∀ cands r0, ev_log DEBUG (msg_empty_profile url)
                        ∉ (merge_schemas cands r0).2) as Hlog.
    { induction cands as [|d cands IH]; intros r0; simpl.
      - apply not_elem_of_nil.
      - destruct (extract_from_schema d) as [e|]; simpl.
        + specialize (IH (merge_profiles r0 e)).
          destruct (merge_schemas cands (merge_profiles r0 e)). simpl in *.
          rewrite elem_of_cons. intros [?|?]; [discriminate | done].
        + rewrite elem_of_cons, elem_of_nil. intros [?|?]; [discriminate|done]. }
    specialize (Hlog (_iter_schema_candidates soup) (Profile_of_url url)).
    rewrite Hm in Hlog. simpl in Hlog.
    destruct H as [(_ & _ & ->)|(_ & _ & ->)]; [|done].
    rewrite elem_of_app, elem_of_cons, elem_of_nil.
    intros [?|[?|?]]; [done | discriminate | done]. }
  rewrite !elem_of_app.
  destruct (no_signal p); split; intros H; try done.
  - right. right. right. left.
  - destruct H as [H|[H|[H|H]]]; try done.
    + destruct (Qlt_le_dec 0 max_delay); revert H; not_among.
    + revert H; not_among.
    + by apply elem_of_nil in H.
Qed.

Lemma fetched_record_always_returned_witness :
  ∃ evs,
    fetch_profile SampleWeb.pages SampleWeb.blank SampleWeb.delay_range
      = (Ok (Some (Profile_of_url SampleWeb.blank)), evs) ∧
    profile_url (Profile_of_url SampleWeb.blank) = Some SampleWeb.blank ∧
    (ev_log DEBUG (msg_empty_profile SampleWeb.blank) ∈ evs
     ↔ no_signal (Profile_of_url SampleWeb.blank) = true).
Proof.
  apply (fetched_record_always_returned SampleWeb.pages SampleWeb.blank
           SampleWeb.delay_range Samples.blank_page
           (Profile_of_url SampleWeb.blank) [ev_extract_microdata]);
    vm_compute; reflexivity.
Defined.

Example fetch_blank :
  fetch_profile SampleWeb.pages SampleWeb.blank SampleWeb.delay_range
  = (Ok (Some (Profile_of_url SampleWeb.blank)),
     [ev_log DEBUG (msg_waiting SampleWeb.blank); ev_sleep;
      ev_get SampleWeb.blank; ev_extract_microdata;
      ev_log DEBUG (msg_empty_profile SampleWeb.blank)]).
Proof. vm_compute. reflexivity. Qed.

(** ** C10: phones of one record from two sources *)

Lemma phone_slots_distinct (l : list string) :
  l !! 1%nat ≠ None → l !! 0%nat ≠ l !! 1%nat ∨ ¬ NoDup l.
Proof.
  destruct l as [|x [|y l]]; simpl; try done. intros _.
  destruct (decide (x = y)) as [->|Hne].
  - right. intros Hnd. apply NoDup_cons in Hnd as [Hnd _]. apply Hnd. left.
  - left. congruence.
Qed.

Lemma extract_from_schema_distinct item e :
  extract_from_schema item = Ok e → Py.truthy (phone2 e) = true →
  phone e ≠ phone2 e.
Proof.
  intros [Hp Hp2]%extract_from_schema_phones Ht. rewrite Hp, Hp2.
  destruct (phone_slots_distinct (dedup (discovered_phones item))) as [H|H];
    [|done|destruct H; apply NoDup_dedup].
  rewrite <- Hp2. by destruct (phone2 e).
Qed.

Lemma extract_microdata_distinct soup :
  Py.truthy (phone2 (extract_microdata soup)) = true →
  phone (extract_microdata soup) ≠ phone2 (extract_microdata soup).
Proof.
  destruct (extract_microdata_phones soup) as [Hp Hp2]. intros Ht.
  rewrite Hp, Hp2.
  destruct (phone_slots_distinct (dedup (discovered_phones_microdata soup)))
    as [H|H]; [|done|destruct H; apply NoDup_dedup].
  rewrite <- Hp2. by destruct (phone2 (extract_microdata soup)).
Qed.

Lemma merge_phone_pair base extra :
  Py.truthy (phone base) = true → Py.truthy (phone2 base) = false →
  Py.truthy (phone2 extra) = true →
  phone (merge_profiles base extra) = phone base ∧
  phone2 (merge_profiles base extra) = phone2 extra.
Proof.
  intros H1 H2 H3. split.
  - by apply (merge_keeps_truthy base extra f_phone).
  - change (getattr (merge_profiles base extra) f_phone2 = phone2 extra).
    rewrite getattr_merge_profiles. unfold first_wins. simpl.
    by rewrite H2, H3.
Qed.

(** C10.  A merge into a record that has a primary phone and no secondary
    one keeps the record's primary phone and takes the candidate's secondary
    phone.  On a page whose first block supplies a primary phone only and
    whose second block supplies two phones, and on a page where tier 1 leaves
    a primary phone and no name (so that the fallback runs) and the
    micro-attributes supply two phones, the final record has the earlier
    source's primary phone and the later source's secondary phone; the later
    source's primary phone is not its secondary phone. *)
Theorem phones_from_two_sources :
  (∀ base extra,
     Py.truthy (phone base) = true → Py.truthy (phone2 base) = false →
     Py.truthy (phone2 extra) = true →
     phone (merge_profiles base extra) = phone base ∧
     phone2 (merge_profiles base extra) = phone2 extra)
  ∧ (∀ soup url d1 d2 rest e1 e2 p evs,
       _iter_schema_candidates soup = d1 :: d2 :: rest →
       extract_from_schema d1 = Ok e1 → extract_from_schema d2 = Ok e2 →
       Py.truthy (phone e1) = true → Py.truthy (phone2 e1) = false →
       Py.truthy (phone e2) = true → Py.truthy (phone2 e2) = true →
       parse_profile_page soup url = (Ok p, evs) →
       phone p = phone e1 ∧ phone2 p = phone2 e2 ∧ phone2 p ≠ phone e2)
  ∧ (∀ soup url r evs1 p evs,
       merge_schemas (_iter_schema_candidates soup) (Profile_of_url url)
         = (Ok r, evs1) →
       Py.truthy (phone r) = true → Py.truthy (phone2 r) = false →
       Py.truthy (name r) = false →
       Py.truthy (phone (extract_microdata soup)) = true →
       Py.truthy (phone2 (extract_microdata soup)) = true →
       parse_profile_page soup url = (Ok p, evs) →
       phone p = phone r ∧ phone2 p = phone2 (extract_microdata soup) ∧
       phone2 p ≠ phone (extract_microdata soup)).
Proof.
  split; [exact merge_phone_pair|split].
  - intros soup url d1 d2 rest e1 e2 p evs Hc He1 He2 H1 H12 H2 H22 Hp.
    apply parse_profile_page_inv in Hp as (r & evs1 & Hm & Hp).
    rewrite Hc in Hm. apply merge_schemas_fold in Hm as (extras & HF & Hr).
    apply Forall2_cons_inv_l in HF as (e1' & extras1 & He1' & HF & ->).
    apply Forall2_cons_inv_l in HF as (e2' & extras2 & He2' & HF & ->).
    assert (e1' = e1) as -> by congruence.
    assert (e2' = e2) as -> by congruence.
    simpl in Hr.
    set (r1 := merge_profiles (Profile_of_url url) e1) in *.
    assert (phone r1 = phone e1 ∧ phone2 r1 = None) as [Hr1 Hr12].
    { split.
      - change (getattr r1 f_phone = phone e1). unfold r1.
        rewrite getattr_merge_profiles. unfold first_wins. simpl. by rewrite H1.
      - change (getattr r1 f_phone2 = None). unfold r1.
        rewrite getattr_merge_profiles. unfold first_wins. simpl. by rewrite H12. }
    destruct (merge_phone_pair r1 e2) as [Hr2 Hr22];
      [by rewrite Hr1 | by rewrite Hr12 | done |].
    assert (phone r = phone e1 ∧ phone2 r = phone2 e2) as [Hph Hph2].
    { subst r. split.
      - rewrite <- Hr1, <- Hr2.
        apply (merges_keep_truthy extras2 _ f_phone). simpl. by rewrite Hr2, Hr1.
      - rewrite <- Hr22.
        apply (merges_keep_truthy extras2 _ f_phone2). simpl. by rewrite Hr22. }
    assert (phone p = phone r ∧ phone2 p = phone2 r) as [-> ->].
    { destruct Hp as [(_ & -> & _)|(_ & -> & _)]; [|done]. split.
      - apply (merge_keeps_truthy r _ f_phone). simpl. by rewrite Hph.
      - apply (merge_keeps_truthy r _ f_phone2). simpl. by rewrite Hph2. }
    rewrite Hph, Hph2. split; [done|]. split; [done|].
    intros Heq. by eapply extract_from_schema_distinct.
  - intros soup url r evs1 p evs Hm H1 H12 Hn Hm1 Hm2 Hp.
    apply parse_profile_page_inv in Hp as (r' & evs1' & Hm' & Hp).
    rewrite Hm in Hm'. injection Hm' as <- <-.
    destruct Hp as [(_ & -> & _)|(Hboth & _ & _)].
    + destruct (merge_phone_pair r (extract_microdata soup)) as [-> ->]; try done.
      split; [done|]. split; [done|].
      intros Heq. by eapply extract_microdata_distinct.
    + by rewrite Hn in Hboth.
Qed.

Lemma phones_from_two_sources_witness :
  (phone (merge_profiles Samples.jane Samples.many_phones) = Some "+49 1 2 3" ∧
   phone2 (merge_profiles Samples.jane Samples.many_phones) = Some "+49 2")
  ∧ (phone Samples.two_block_record = Some "+49 30 1" ∧
     phone2 Samples.two_block_record = Some "+49 30 3" ∧
     phone2 Samples.two_block_record ≠ Some "+49 30 2")
  ∧ (phone Samples.phone_only_record = Some "+49 30 1" ∧
     phone2 Samples.phone_only_record = Some "+49 40 2" ∧
     phone2 Samples.phone_only_record ≠ Some "+49 40 1").
Proof.
  destruct phones_from_two_sources as (Hmerge & Hblocks & Hfallback).
  split; [|split].
  - apply (Hmerge Samples.jane Samples.many_phones); reflexivity.
  - apply (Hblocks Samples.two_block_page Samples.url Samples.office_block
             Samples.person_block []
             (mkProfile None (Some "+49 30 1") None None None None None None)
             (mkProfile (Some "Jane Doe") (Some "+49 30 2") (Some "+49 30 3")
                        None None None None None)
             Samples.two_block_record
             [ev_extract_from_schema Samples.office_block;
              ev_extract_from_schema Samples.person_block]);
      vm_compute; reflexivity.
  - apply (Hfallback Samples.phone_only_page Samples.url
             (mkProfile None (Some "+49 30 1") None None None None None
                        (Some Samples.url))
             [ev_extract_from_schema Samples.office_block]
             Samples.phone_only_record
             [ev_extract_from_schema Samples.office_block; ev_extract_microdata]);
      vm_compute; reflexivity.
Defined.

Example parse_two_blocks :
  (parse_profile_page Samples.two_block_page Samples.url).1
  = Ok Samples.two_block_record.
Proof. vm_compute. reflexivity. Qed.

Example parse_phone_only :
  (parse_profile_page Samples.phone_only_page Samples.url).1
  = Ok Samples.phone_only_record.
Proof. vm_compute. reflexivity. Qed.

(** ** C5: locations of a sitemap document *)

Lemma elem_of_flat_map {A B} (f : A → list B) (l : list A) (y : B) :
  y ∈ flat_map f l ↔ ∃ x, x ∈ l ∧ y ∈ f x.
Proof.
  rewrite list_elem_of_In, in_flat_map. setoid_rewrite list_elem_of_In. done.
Qed.

Lemma elem_of_List_filter {A} (f : A → bool) (l : list A) (x : A) :
  x ∈ List.filter f l ↔ x ∈ l ∧ f x = true.
Proof. rewrite !list_elem_of_In. apply filter_In. Qed.

Lemma iter_below root e :
  e ∈ flat_map iter (children root) ↔ below root e.
Proof.
  split.
  - revert e. induction root as [t x cs IH] using element_children_ind.
    intros e (c & Hc & He)%elem_of_flat_map. simpl in Hc.
    rewrite Forall_forall in IH. destruct c as [t' x' cs'] eqn:Ec.
    simpl in He. apply elem_of_cons in He as [->|He].
    + by apply below_child.
    + apply below_deeper with c; subst c; [done|]. apply (IH _ Hc). done.
  - induction 1 as [root e He | root c e Hc Hb IH].
    + apply elem_of_flat_map. exists e. split; [done|].
      destruct e. simpl. left.
    + apply elem_of_flat_map. exists c. split; [done|].
      destruct c. simpl in *. by right.
Qed.

Lemma elem_of_findall root form e :
  e ∈ findall_descendants root form ↔ below root e ∧ tag e = form.
Proof.
  unfold findall_descendants. rewrite elem_of_List_filter, iter_below.
  by rewrite String.eqb_eq.
Qed.

Lemma nonempty_iff t : Py.nonempty t = true ↔ t ≠ "".
Proof. destruct t; simpl; split; congruence. Qed.

Lemma elem_of_loc_texts els v :
  v ∈ loc_texts els ↔
  ∃ e t, e ∈ els ∧ text e = Some t ∧ t ≠ "" ∧ v = Py.strip t.
Proof.
  unfold loc_texts. rewrite elem_of_flat_map. split.
  - intros (e & He & Hv). destruct (text e) as [t|] eqn:Et; [|by apply elem_of_nil in Hv].
    destruct (Py.nonempty t) eqn:En; [|by apply elem_of_nil in Hv].
    apply list_elem_of_singleton in Hv. exists e, t.
    by rewrite <- nonempty_iff.
  - intros (e & t & He & Et & Hne & ->). exists e. split; [done|].
    apply nonempty_iff in Hne. rewrite Et, Hne. left.
Qed.

Lemma extract_loc_values_form root form :
  (form = namespaced_loc ∧ ∃ e, below root e ∧ tag e = namespaced_loc)
  ∨ (form = plain_loc ∧ ¬ ∃ e, below root e ∧ tag e = namespaced_loc) →
  ∀ v, v ∈ (extract_loc_values (Document root)).1 ↔
       ∃ e, below root e ∧ location_value form e v.
Proof.
  intros Hform v. unfold extract_loc_values. cbn [fst].
  fold namespaced_loc. unfold location_value.
  destruct (findall_descendants root namespaced_loc) as [|e0 els] eqn:Ens.
  - destruct Hform as [[_ (e & He)]|[-> _]].
    + apply elem_of_findall in He. rewrite Ens in He. by apply elem_of_nil in He.
    + rewrite elem_of_loc_texts. setoid_rewrite elem_of_findall.
      unfold plain_loc. split.
      * intros (e & t & [Hb Ht] & H1 & H2 & H3). eauto 10.
      * intros (e & Hb & Ht & t & H1 & H2 & H3). eauto 10.
  - destruct Hform as [[-> _]|[_ Hno]].
    + rewrite elem_of_loc_texts. rewrite <- Ens. setoid_rewrite elem_of_findall.
      split.
      * intros (e & t & [Hb Ht] & H1 & H2 & H3). eauto 10.
      * intros (e & Hb & Ht & t & H1 & H2 & H3). eauto 10.
    + destruct Hno. exists e0. apply elem_of_findall. rewrite Ens. left.
Qed.

(** C5, as the code has it.  From a well-formed document the function returns,
    without logging, the trimmed text of every location element below the
    root whose text is non-empty: of the namespaced ones when the document
    has a namespaced location element, of the ones without namespace
    otherwise.  From a body that is not well-formed it returns no location
    and logs a warning. *)
Theorem locations_of_one_form root :
  (extract_loc_values (Document root)).2 = [] ∧
  ((∃ e, below root e ∧ tag e = namespaced_loc) →
   ∀ v, v ∈ (extract_loc_values (Document root)).1 ↔
        ∃ e, below root e ∧ location_value namespaced_loc e v) ∧
  ((¬ ∃ e, below root e ∧ tag e = namespaced_loc) →
   ∀ v, v ∈ (extract_loc_values (Document root)).1 ↔
        ∃ e, below root e ∧ location_value plain_loc e v) ∧
  extract_loc_values Malformed = ([], [ev_log WARNING msg_sitemap_unparsable]).
Proof.
  split; [done|]. split; [|split; [|done]].
  - intros H. apply extract_loc_values_form. by left.
  - intros H. apply extract_loc_values_form. by right.
Qed.

Lemma plain_has_no_namespaced_loc :
  ¬ ∃ e, below SampleXml.plain e ∧ tag e = namespaced_loc.
Proof.
  intros (e & Hb & Ht). apply iter_below in Hb. simpl in Hb.
  revert Hb. rewrite !elem_of_cons, elem_of_nil.
  intros H; repeat (destruct H as [H|H]); subst; try discriminate Ht; done.
Qed.

Lemma locations_of_one_form_witness :
  (SampleXml.b ∈ (extract_loc_values (Document SampleXml.namespaced)).1 ↔
   ∃ e, below SampleXml.namespaced e ∧ location_value namespaced_loc e SampleXml.b)
  ∧ (SampleXml.b ∈ (extract_loc_values (Document SampleXml.plain)).1 ↔
     ∃ e, below SampleXml.plain e ∧ location_value plain_loc e SampleXml.b).
Proof.
  split.
  - apply (proj1 (proj2 (locations_of_one_form SampleXml.namespaced))).
    exists SampleXml.loc_a. split; [|reflexivity].
    apply below_deeper with (Element (SITEMAP_NS ++ "url") None [SampleXml.loc_a]);
      [simpl; left | apply below_child; simpl; left].
  - apply (proj1 (proj2 (proj2 (locations_of_one_form SampleXml.plain)))).
    exact plain_has_no_namespaced_loc.
Defined.

(** C5, as the claim has it, fails on a document that has both forms: the
    location without namespace is a non-empty location value of the document
    and is not returned. *)
Lemma mixed_forms_drop_plain_locations :
  below SampleXml.mixed SampleXml.loc_b ∧
  location_value plain_loc SampleXml.loc_b SampleXml.b ∧
  extract_loc_values (Document SampleXml.mixed) = ([SampleXml.a], []) ∧
  SampleXml.b ∉ (extract_loc_values (Document SampleXml.mixed)).1.
Proof.
  split; [|split; [|split]].
  - apply below_deeper with (Element "url" None [SampleXml.loc_b]);
      [simpl; right; left | apply below_child; simpl; left].
  - split; [reflexivity|]. exists SampleXml.b.
    split; [reflexivity|]. split; [discriminate|]. vm_compute. reflexivity.
  - vm_compute. reflexivity.
  - change (SampleXml.b ∉ [SampleXml.a]).
    rewrite elem_of_cons, elem_of_nil. intros [H|H]; [discriminate|done].
Qed.

Example locations_namespaced :
  extract_loc_values (Document SampleXml.namespaced) = ([SampleXml.a; SampleXml.b], []).
Proof. vm_compute. reflexivity. Qed.

Example locations_plain :
  extract_loc_values (Document SampleXml.plain) = ([SampleXml.a; SampleXml.b], []).
Proof. vm_compute. reflexivity. Qed.

(** ** C3: the walker *)

Section Walker.

Variable web : gmap string (result xml_text).

Lemma fetched_app evs1 evs2 : fetched (evs1 ++ evs2) = fetched evs1 ++ fetched evs2.
Proof. apply omap_app. Qed.

Lemma fetched_extract_loc_values body : fetched (extract_loc_values body).2 = [].
Proof. by destruct body. Qed.

Lemma walk_inv_refl seen : walk_inv seen seen [].
Proof.
  split; [done|]. split; [constructor|]. intros u Hu. by apply elem_of_nil in Hu.
Qed.

Lemma walk_inv_trans s1 s2 s3 evs1 evs2 :
  walk_inv s1 s2 evs1 → walk_inv s2 s3 evs2 → walk_inv s1 s3 (evs1 ++ evs2).
Proof.
  intros (Hs1 & Hn1 & Hf1) (Hs2 & Hn2 & Hf2). split; [set_solver|].
  rewrite fetched_app. split.
  - apply NoDup_app. split; [done|]. split; [|done].
    intros u Hu1 Hu2. apply Hf1 in Hu1. apply Hf2 in Hu2. tauto.
  - intros u [Hu|Hu]%elem_of_app.
    + apply Hf1 in Hu. set_solver.
    + apply Hf2 in Hu. set_solver.
Qed.

Lemma walk_locs_inv rec locs acc seen res seen' evs :
  (∀ loc s r s' e, rec loc s = Some (r, s', e) → walk_inv s s' e) →
  walk_locs rec locs acc seen = Some (res, seen', evs) →
  walk_inv seen seen' evs.
Proof.
  intros Hrec. revert acc seen evs.
  induction locs as [|loc rest IH]; intros acc seen evs H; simpl in H.
  - injection H as <- <- <-. apply walk_inv_refl.
  - destruct (negb (Py.nonempty loc)); [by eapply IH|].
    destruct (_ || _).
    + destruct (rec loc seen) as [[[[found|e] s1] evs1]|] eqn:Hr; [| |done].
      * destruct (walk_locs rec rest (acc ++ found) s1)
          as [[[res2 s2] evs2]|] eqn:Hw; [|done].
        injection H as <- <- <-.
        eapply walk_inv_trans; [by eapply Hrec | by eapply IH].
      * injection H as <- <- <-. by eapply Hrec.
    + destruct (Py.contains _ _); by eapply IH.
Qed.

Lemma walk_walk_inv depth url seen res seen' evs :
  walk depth web url seen = Some (res, seen', evs) → walk_inv seen seen' evs.
Proof.
  revert url seen res seen' evs.
  induction depth as [|d IH]; intros url seen res seen' evs H; [done|].
  simpl in H. destruct (decide (url ∈ seen)) as [Hin|Hin].
  { injection H as <- <- <-. apply walk_inv_refl. }
  assert (walk_inv seen (seen ∪ {[url]})
            [ev_log DEBUG (msg_downloading_sitemap url); ev_get url]) as Hpre.
  { split; [set_solver|]. split.
    - simpl. apply NoDup_singleton.
    - simpl. intros u ->%list_elem_of_singleton. set_solver. }
  destruct (fetch_response web url) as [body|e].
  - pose proof (fetched_extract_loc_values body) as Hlog.
    destruct (extract_loc_values body) as [locs evs0]. simpl in Hlog.
    destruct (walk_locs (walk d web) locs [] (seen ∪ {[url]}))
      as [[[res2 s2] evs2]|] eqn:Hw; [|done].
    injection H as <- <- <-.
    apply (walk_inv_trans _ _ _ _ (evs0 ++ evs2) Hpre).
    apply walk_locs_inv in Hw; [|intros; by eapply IH].
    destruct Hw as (Hs & Hn & Hf). unfold walk_inv.
    rewrite fetched_app, Hlog. done.
  - injection H as <- <- <-. exact Hpre.
Qed.


(** *** Termination *)


Lemma unvisited_mono s1 s2 : s1 ⊆ s2 → (unvisited web s2 ≤ unvisited web s1)%nat.
Proof. intros H. unfold unvisited. apply subseteq_size. set_solver. Qed.

Lemma unvisited_visit seen url body :
  url ∉ seen → fetch_response web url = Ok body →
  (unvisited web (seen ∪ {[url]}) < unvisited web seen)%nat.
Proof.
  intros Hin Hf. unfold unvisited. apply subset_size. split; [set_solver|].
  assert (url ∈ dom web) as Hd.
  { apply elem_of_dom. unfold fetch_response in Hf.
    destruct (web !! url); [done | discriminate]. }
  intros Hsub. assert (url ∈ dom web ∖ (seen ∪ {[url]})) by set_solver.
  set_solver.
Qed.

Lemma unvisited_le_size seen : (unvisited web seen ≤ size web)%nat.
Proof.
  unfold unvisited. rewrite <- size_dom. apply subseteq_size. set_solver.
Qed.

Lemma walk_locs_total rec d locs acc seen :
  (∀ loc s r s' e, rec loc s = Some (r, s', e) → walk_inv s s' e) →
  (∀ loc s, (unvisited web s < d)%nat → is_Some (rec loc s)) →
  (unvisited web seen < d)%nat →
  is_Some (walk_locs rec locs acc seen).
Proof.
  intros Hinv Hrec. revert acc seen.
  induction locs as [|loc rest IH]; intros acc seen Hd; simpl; [done|].
  destruct (negb (Py.nonempty loc)); [by apply IH|].
  destruct (_ || _).
  - destruct (Hrec loc seen Hd) as [[[[found|e] s1] evs1] Hr]; rewrite Hr; [|done].
    apply Hinv in Hr as (Hs & _).
    destruct (IH (acc ++ found) s1) as [[[res2 s2] evs2] Hw].
    { pose proof (unvisited_mono _ _ Hs). lia. }
    by rewrite Hw.
  - destruct (Py.contains _ _); by apply IH.
Qed.

Lemma walk_total depth url seen :
  (unvisited web seen < depth)%nat → is_Some (walk depth web url seen).
Proof.
  revert url seen. induction depth as [|d IH]; intros url seen Hd; [lia|].
  simpl. destruct (decide (url ∈ seen)) as [Hin|Hin]; [done|].
  destruct (fetch_response web url) as [body|e] eqn:Hf; [|done].
  destruct (extract_loc_values body) as [locs evs0].
  destruct (walk_locs_total (walk d web) d locs [] (seen ∪ {[url]}))
    as [[[res2 s2] evs2] Hw].
  - intros. by eapply walk_walk_inv.
  - apply IH.
  - pose proof (unvisited_visit seen url body Hin Hf). lia.
  - by rewrite Hw.
Qed.

(** *** More depth changes nothing *)

Lemma walk_locs_more rec1 rec2 locs acc seen w :
  (∀ loc s x, rec1 loc s = Some x → rec2 loc s = Some x) →
  walk_locs rec1 locs acc seen = Some w →
  walk_locs rec2 locs acc seen = Some w.
Proof.
  intros Hrec. revert acc seen w.
  induction locs as [|loc rest IH]; intros acc seen w H; simpl in *; [done|].
  destruct (negb (Py.nonempty loc)); [by apply IH|].
  destruct (_ || _).
  - destruct (rec1 loc seen) as [[[[found|e] s1] evs1]|] eqn:Hr; [| |done].
    + rewrite (Hrec _ _ _ Hr).
      destruct (walk_locs rec1 rest (acc ++ found) s1) as [w1|] eqn:Hw; [|done].
      by rewrite (IH _ _ _ Hw).
    + by rewrite (Hrec _ _ _ Hr).
  - destruct (Py.contains _ _); by apply IH.
Qed.

Lemma walk_more d1 d2 url seen w :
  (d1 ≤ d2)%nat → walk d1 web url seen = Some w → walk d2 web url seen = Some w.
Proof.
  revert d2 url seen w. induction d1 as [|d1 IH]; intros d2 url seen w Hle H;
    [done|].
  destruct d2 as [|d2]; [lia|]. simpl in *.
  destruct (decide (url ∈ seen)); [done|].
  destruct (fetch_response web url) as [body|e]; [|done].
  destruct (extract_loc_values body) as [locs evs0].
  destruct (walk_locs (walk d1 web) locs [] (seen ∪ {[url]})) as [w1|] eqn:Hw;
    [|done].
  rewrite (walk_locs_more (walk d1 web) (walk d2 web) _ _ _ w1); [done| |done].
  intros loc s x. apply IH. lia.
Qed.


(** *** [expand_sitemap] computes [walk] *)

Lemma deref_alive σ r : deref σ r ≠ ∅ → heap σ !! r = Some (deref σ r).
Proof.
  unfold deref. rewrite lookup_total_alt.
  destruct (heap σ !! r); simpl; [done|]. intros H. by destruct H.
Qed.

Lemma seen_or_set_spec seen σ0 r σ :
  seen_or_set seen σ0 = (r, σ) →
  heap σ !! r = Some (deref σ r) ∧ trace σ = trace σ0 ∧
  ((seen = Some r ∧ σ = σ0 ∧ deref σ r ≠ ∅) ∨ deref σ r = ∅).
Proof.
  assert (∀ r σ, alloc_set σ0 = (r, σ) →
            heap σ !! r = Some (deref σ r) ∧ trace σ = trace σ0 ∧ deref σ r = ∅)
    as Halloc.
  { intros r' σ' [= <- <-]. unfold deref. simpl.
    rewrite lookup_total_insert_eq, lookup_insert_eq. done. }
  unfold seen_or_set. destruct seen as [r0|].
  - destruct (decide (deref σ0 r0 = ∅)) as [He|He].
    + intros H. apply Halloc in H. tauto.
    + intros [= <- <-]. split; [by apply deref_alive|]. split; [done|]. by left.
  - intros H. apply Halloc in H. tauto.
Qed.

Lemma seen_or_set_shared σ r :
  deref σ r ≠ ∅ → seen_or_set (Some r) σ = (r, σ).
Proof. intros H. unfold seen_or_set. by rewrite decide_False. Qed.

Lemma lift_same r σ res :
  heap σ !! r = Some (deref σ r) → lift r σ (res, deref σ r, []) = (res, σ).
Proof.
  intros H. unfold lift. rewrite insert_id by done. rewrite app_nil_r.
  by destruct σ.
Qed.

Lemma deref_insert h t r s : deref (mkState (<[r := s]> h) t) r = s.
Proof. unfold deref. simpl. apply lookup_total_insert_eq. Qed.

Lemma expand_locs_sim d r :
  (∀ url σ, deref σ r ≠ ∅ →
     expand_sitemap d web url (Some r) σ = lift r σ <$> walk d web url (deref σ r)) →
  ∀ locs acc σ, deref σ r ≠ ∅ →
    expand_locs (fun loc σ => expand_sitemap d web loc (Some r) σ) locs acc σ
    = lift r σ <$> walk_locs (walk d web) locs acc (deref σ r).
Proof.
  intros Hrec. induction locs as [|loc rest IH]; intros acc σ Hne; simpl.
  - f_equal. symmetry. apply lift_same. by apply deref_alive.
  - destruct (negb (Py.nonempty loc)); [by apply IH|].
    destruct (_ || _).
    + rewrite Hrec by done.
      destruct (walk d web loc (deref σ r)) as [[[[found|e] s1] evs1]|] eqn:Hw;
        simpl; [| done | done].
      apply walk_walk_inv in Hw as (Hs & _).
      rewrite IH.
      2:{ rewrite deref_insert. set_solver. }
      rewrite deref_insert.
      destruct (walk_locs (walk d web) rest (acc ++ found) s1)
        as [[[res2 s2] evs2]|]; simpl; [|done].
      by rewrite insert_insert_eq, app_assoc.
    + destruct (Py.contains _ _); by apply IH.
Qed.

Lemma expand_sitemap_sim depth url seen σ0 r σ :
  seen_or_set seen σ0 = (r, σ) →
  expand_sitemap depth web url seen σ0
  = lift r σ <$> walk depth web url (deref σ r).
Proof.
  revert url seen σ0 r σ.
  induction depth as [|d IH]; intros url seen σ0 r σ Hs; [done|].
  simpl. rewrite Hs. apply seen_or_set_spec in Hs as (Hal & _ & _).
  destruct (decide (url ∈ deref σ r)) as [Hin|Hin].
  { simpl. f_equal. symmetry. by apply lift_same. }
  destruct (fetch_response web url) as [body|e].
  - destruct (extract_loc_values body) as [locs evs0].
    rewrite (expand_locs_sim d r).
    + rewrite deref_insert.
      destruct (walk_locs _ _ _ _) as [[[res2 s2] evs2]|]; simpl; [|done].
      rewrite insert_insert_eq. by rewrite <- !app_assoc.
    + intros url' σ' Hne. apply IH. by apply seen_or_set_shared.
    + rewrite deref_insert. set_solver.
  - simpl. unfold emit, set_add. simpl. by rewrite <- !app_assoc.
Qed.


(** *** A top-level call *)

Lemma expand_sitemap_top depth url σ :
  expand_sitemap depth web url None σ
  = lift (alloc_set σ).1 (alloc_set σ).2 <$> walk depth web url ∅.
Proof.
  rewrite (expand_sitemap_sim depth url None σ (alloc_set σ).1 (alloc_set σ).2)
    by reflexivity.
  do 2 f_equal. unfold deref. simpl. apply lookup_total_insert_eq.
Qed.

Lemma walk_enough depth url :
  (size web < depth)%nat →
  ∃ w, walk depth web url ∅ = Some w ∧ walk (S (size web)) web url ∅ = Some w.
Proof.
  intros Hd. destruct (walk_total (S (size web)) url ∅) as [w Hw].
  { pose proof (unvisited_le_size ∅). lia. }
  exists w. split; [|done]. eapply walk_more; [|done]. lia.
Qed.

Lemma expand_sitemap_enough depth url σ :
  (size web < depth)%nat →
  expand_sitemap depth web url None σ
  = expand_sitemap (S (size web)) web url None σ.
Proof.
  intros Hd. rewrite !expand_sitemap_top.
  destruct (walk_enough depth url Hd) as (w & -> & ->). done.
Qed.

(** *** The seeds *)

Lemma collect_seeds_enough depth seeds urls σ :
  (size web < depth)%nat →
  collect_seeds depth web seeds urls σ
  = collect_seeds (S (size web)) web seeds urls σ.
Proof.
  intros Hd. revert urls σ. induction seeds as [|seed rest IH]; intros urls σ;
    cbn [collect_seeds]; [done|].
  rewrite (expand_sitemap_enough depth) by done.
  destruct (expand_sitemap (S (size web)) web seed None σ)
    as [[[found|e] σ']|]; [apply IH | apply IH | done].
Qed.

Lemma collect_seeds_found seeds urls σ :
  ∃ σ', collect_seeds (S (size web)) web seeds urls σ
        = Some (urls ∪ found_by (S (size web)) web seeds, σ').
Proof.
  revert urls σ. induction seeds as [|seed rest IH]; intros urls σ;
    cbn [collect_seeds found_by].
  - exists σ. do 2 f_equal. set_solver.
  - rewrite expand_sitemap_top.
    destruct (walk_enough (S (size web)) seed) as ([[[found|e] s] evs] & -> & _);
      [lia| |]; cbn [fmap option_fmap option_map lift].
    + edestruct IH as [σ' ->]. exists σ'. do 2 f_equal. set_solver.
    + edestruct IH as [σ' ->]. exists σ'. do 2 f_equal. set_solver.
Qed.

Lemma elem_of_found_by seeds u :
  u ∈ found_by (S (size web)) web seeds ↔
  ∃ seed found τ,
    seed ∈ seeds ∧
    expand_sitemap (S (size web)) web seed None initial_state = Some (Ok found, τ) ∧
    u ∈ found.
Proof.
  induction seeds as [|seed rest IH]; cbn [found_by].
  - split; [set_solver|]. intros (? & ? & ? & H & _). by apply elem_of_nil in H.
  - rewrite elem_of_union, IH. clear IH. split.
    + intros [Hu|(seed' & found & τ & Hs & He & Hu)].
      * destruct (walk (S (size web)) web seed ∅) as [[[[found|e] s] evs]|] eqn:Hw;
          try set_solver.
        exists seed, found. eexists. split; [left|].
        split; [|set_solver]. rewrite expand_sitemap_top, Hw. done.
      * exists seed', found, τ. split; [by right | done].
    + intros (seed' & found & τ & Hs & He & Hu).
      apply elem_of_cons in Hs as [->|Hs].
      * left. rewrite expand_sitemap_top in He.
        destruct (walk (S (size web)) web seed ∅) as [[[[found'|e] s] evs]|];
          cbn [fmap option_fmap option_map lift] in He; try discriminate.
        injection He as -> _. set_solver.
      * right. eauto 10.
Qed.

End Walker.

Lemma sorted_spec (urls : gset string) :
  Sorted String.le (sorted urls) ∧ NoDup (sorted urls) ∧
  (∀ u, u ∈ sorted urls ↔ u ∈ urls).
Proof.
  unfold sorted. split; [apply Sorted_merge_sort; apply _|]. split.
  - rewrite merge_sort_Permutation. apply NoDup_elements.
  - intros u. rewrite merge_sort_Permutation. apply elem_of_elements.
Qed.

(** C3.  Whatever the web (a finite map, cycles and self-references
    included) a top-level expansion returns or raises, at every depth bound
    above the number of sitemaps of the web and with the same outcome; among
    the downloads it makes no URL occurs twice; and a call on a URL that is
    already in the visit set returns the empty list at once, leaving the store
    as it was: no download, no log record, no exception. *)
Theorem expansion_terminates_fetching_once web url σ :
  (∃ res σ' evs,
     (∀ depth, (size web < depth)%nat →
        expand_sitemap depth web url None σ = Some (res, σ')) ∧
     trace σ' = trace σ ++ evs ∧
     NoDup (fetched evs))
  ∧ (∀ depth r,
       url ∈ deref σ r →
       expand_sitemap (S depth) web url (Some r) σ = Some (Ok [], σ)).
Proof.
  split.
  - destruct (walk_enough web (S (size web)) url) as ([[res s] evs] & Hw & _); [lia|].
    exists res, (lift (alloc_set σ).1 (alloc_set σ).2 (res, s, evs)).2, evs.
    split; [|split].
    + intros depth Hd. rewrite expand_sitemap_enough, expand_sitemap_top, Hw by done.
      done.
    + done.
    + by apply (walk_walk_inv web) in Hw as (_ & Hn & _).
  - intros depth r Hin. cbn [expand_sitemap].
    rewrite seen_or_set_shared by set_solver.
    by rewrite decide_True.
Qed.

Lemma expansion_terminates_fetching_once_witness :
  (∃ res σ' evs,
     expand_sitemap 5 SampleSitemaps.web SampleSitemaps.index None initial_state
       = Some (res, σ') ∧
     trace σ' = trace initial_state ++ evs ∧
     NoDup (fetched evs))
  ∧ expand_sitemap 1 SampleSitemaps.web SampleSitemaps.index (Some 0%nat)
      (mkState {[0%nat := {[SampleSitemaps.index]}]} [])
    = Some (Ok [], mkState {[0%nat := {[SampleSitemaps.index]}]} []).
Proof.
  split.
  - destruct (proj1 (expansion_terminates_fetching_once SampleSitemaps.web
                       SampleSitemaps.index initial_state))
      as (res & σ' & evs & Hrun & Htrace & Hnodup).
    exists res, σ', evs. split; [|done].
    apply Hrun. vm_compute. lia.
  - apply (proj2 (expansion_terminates_fetching_once SampleSitemaps.web
                    SampleSitemaps.index
                    (mkState {[0%nat := {[SampleSitemaps.index]}]} []))).
    vm_compute. reflexivity.
Defined.

(** The sample web, whose sitemaps point at each other and at themselves. *)
Example expand_sample_index :
  (λ x, (x.1, fetched (trace x.2)))
    <$> expand_sitemap 5 SampleSitemaps.web SampleSitemaps.index None initial_state
  = Some (Ok [SampleSitemaps.bert; SampleSitemaps.anna; SampleSitemaps.bert],
          [SampleSitemaps.index; SampleSitemaps.north; SampleSitemaps.south;
           SampleSitemaps.broken]).
Proof. vm_compute. reflexivity. Qed.

(** ** The seeds of a run *)

Example collect_sample :
  fst <$> collect_profile_urls 5 SampleSitemaps.web
            [SampleSitemaps.index; SampleSitemaps.south] initial_state
  = Some [SampleSitemaps.anna; SampleSitemaps.bert].
Proof. vm_compute. reflexivity. Qed.

(** A sitemap that cannot be fetched costs its seed everything found before
    it. *)
Example collect_sample_with_gap :
  fst <$> collect_profile_urls 5 SampleSitemaps.web_with_gap
            [SampleSitemaps.index] initial_state
  = Some [].
Proof. vm_compute. reflexivity. Qed.

(** ** Trimming *)

Lemma chars_inj s t : chars s = chars t → s = t.
Proof.
  intros H. rewrite <- (string_of_list_ascii_of_string s),
    <- (string_of_list_ascii_of_string t). by rewrite H.
Qed.

Lemma chars_rev_app s t :
  chars (String.rev_app s t) = reverse (chars s) ++ chars t.
Proof.
  revert t. induction s as [|a s IH]; intros t; simpl; [done|].
  rewrite IH, reverse_cons, <- app_assoc. done.
Qed.

Lemma chars_rev s : chars (String.rev s) = reverse (chars s).
Proof. unfold String.rev. rewrite chars_rev_app. simpl. apply app_nil_r. Qed.

Lemma chars_lstrip s : chars (Py.lstrip s) = drop_spaces (chars s).
Proof.
  induction s as [|a s IH]; simpl; [done|]. by destruct (Py.isspace a).
Qed.

Lemma chars_strip s :
  chars (Py.strip s) = reverse (drop_spaces (reverse (drop_spaces (chars s)))).
Proof. unfold Py.strip. by rewrite chars_rev, chars_lstrip, chars_rev, chars_lstrip. Qed.

Lemma drop_spaces_split l :
  ∃ p, l = p ++ drop_spaces l ∧ Forall (fun a => Py.isspace a = true) p.
Proof.
  induction l as [|a l (p & Hp & HF)]; simpl.
  - by exists [].
  - destruct (Py.isspace a) eqn:E.
    + exists (a :: p). split; [simpl; by f_equal | by constructor].
    + by exists [].
Qed.

Lemma drop_spaces_head l a :
  head (drop_spaces l) = Some a → Py.isspace a = false.
Proof.
  induction l as [|b l IH]; simpl; [done|].
  destruct (Py.isspace b) eqn:E; [done|]. simpl. by intros [= <-].
Qed.

Lemma drop_spaces_id l :
  (∀ a, head l = Some a → Py.isspace a = false) → drop_spaces l = l.
Proof. destruct l as [|b l]; simpl; [done|]. intros H. by rewrite (H b). Qed.

Lemma head_reverse {A} (l : list A) : head (reverse l) = last l.
Proof.
  induction l as [|a l IH] using rev_ind; [done|].
  by rewrite reverse_app, last_snoc.
Qed.

Lemma last_reverse' {A} (l : list A) : last (reverse l) = head l.
Proof. by rewrite <- head_reverse, reverse_involutive. Qed.

Lemma head_app_ne {A} (l1 l2 : list A) a :
  head l1 = Some a → head (l1 ++ l2) = Some a.
Proof. by destruct l1. Qed.

(** What [strip] removes and what it leaves. *)
Lemma strip_spec s :
  (∃ l r, chars s = l ++ chars (Py.strip s) ++ r ∧
          Forall (fun a => Py.isspace a = true) l ∧
          Forall (fun a => Py.isspace a = true) r) ∧
  no_outer_space (Py.strip s).
Proof.
  unfold no_outer_space. rewrite chars_strip.
  destruct (drop_spaces_split (chars s)) as (p & Hp & HFp).
  set (t := drop_spaces (chars s)) in *.
  destruct (drop_spaces_split (reverse t)) as (q & Hq & HFq).
  set (u := drop_spaces (reverse t)) in *.
  assert (t = reverse u ++ reverse q) as Ht.
  { rewrite <- reverse_app, <- Hq. by rewrite reverse_involutive. }
  split; [|split].
  - exists p, (reverse q). split; [by rewrite <- Ht|]. split; [done|].
    by apply Forall_reverse.
  - intros a Ha. apply (drop_spaces_head (chars s)). fold t. rewrite Ht.
    by apply head_app_ne.
  - intros a Ha. rewrite last_reverse' in Ha. by apply (drop_spaces_head (reverse t)).
Qed.

Lemma strip_fixed s : no_outer_space s → Py.strip s = s.
Proof.
  intros [Hh Hl]. apply chars_inj. rewrite chars_strip.
  rewrite (drop_spaces_id (chars s)) by done.
  rewrite drop_spaces_id, reverse_involutive; [done|].
  intros a. rewrite head_reverse. apply Hl.
Qed.

Lemma strip_idempotent s : Py.strip (Py.strip s) = Py.strip s.
Proof. apply strip_fixed, strip_spec. Qed.

Lemma _clean_text_clean v : clean (_clean_text v).
Proof.
  destruct v as [s|]; simpl; [|done].
  destruct (Py.nonempty (Py.strip s)) eqn:E; simpl; [|done].
  split; [by destruct (Py.strip s) | apply strip_spec].
Qed.

Lemma _clean_text_of_clean v : clean v → _clean_text v = v.
Proof.
  destruct v as [s|]; simpl; [|done]. intros [Hne Hs].
  rewrite strip_fixed by done. by destruct s.
Qed.

(** ** The record of a block *)

Lemma _clean_text_json_exact v :
  _clean_text_json v = if texty v then Ok (cleaned_text v) else Raise AttributeError.
Proof. by destruct v. Qed.

Lemma phone_value_cleaned_text v : phone_value v = cleaned_text v.
Proof. by destruct v. Qed.

Lemma telephone_step_exact acc j :
  telephone_step acc j =
  if texty j then Ok (add_phone acc (phone_value j)) else Raise AttributeError.
Proof. by destruct j. Qed.

Lemma contact_step_exact acc em j :
  contact_step (acc, em) j =
  if contact_well_typed j
  then Ok (add_phone acc (contact_phone j), first_wins em (contact_email j))
  else Raise AttributeError.
Proof.
  destruct j as [| | | |l|c]; try done. cbn [contact_step contact_well_typed].
  rewrite !_clean_text_json_exact.
  destruct (texty (dict_get c "telephone")); cbn; [|done].
  destruct (texty (dict_get c "email")); cbn; [|done].
  reflexivity.
Qed.

Lemma foldM_telephone_step_exact js acc :
  foldM telephone_step acc js =
  if forallb texty js
  then Ok (fold_left add_phone (map phone_value js) acc)
  else Raise AttributeError.
Proof.
  revert acc. induction js as [|j js IH]; intros acc; cbn [foldM map forallb fold_left];
    [done|].
  rewrite telephone_step_exact. destruct (texty j); cbn; [|done]. apply IH.
Qed.

Lemma foldM_contact_step_exact js acc em :
  foldM contact_step (acc, em) js =
  if forallb contact_well_typed js
  then Ok (fold_left add_phone (map contact_phone js) acc,
           fold_left first_wins (map contact_email js) em)
  else Raise AttributeError.
Proof.
  revert acc em. induction js as [|j js IH]; intros acc em;
    cbn [foldM map forallb fold_left]; [done|].
  rewrite contact_step_exact. destruct (contact_well_typed j); cbn; [|done].
  apply IH.
Qed.

Lemma collected_phones item :
  fold_left add_phone
    (map contact_phone (_ensure_list (dict_get item "contactPoint")))
    (fold_left add_phone
       (map phone_value (_ensure_list (dict_get item "telephone"))) [])
  = dedup (discovered_phones item).
Proof.
  rewrite <- fold_left_app, fold_add_phone.
  - simpl. by rewrite filter_not_in_nil, omap_app, !omap_id_map.
  - intros s Hs. apply elem_of_app in Hs as [Hs|Hs].
    + eapply phone_values_nonempty; [apply phone_value_nonempty | done].
    + eapply phone_values_nonempty; [apply contact_phone_nonempty | done].
Qed.

Lemma cleaned_text_nonempty v t : cleaned_text v = Some t → Py.nonempty t = true.
Proof. destruct v; try done. apply _clean_text_nonempty. Qed.

Lemma contact_email_nonempty c t : contact_email c = Some t → Py.nonempty t = true.
Proof. destruct c; try done. apply cleaned_text_nonempty. Qed.

Lemma fold_first_wins_set vs e :
  Py.nonempty e = true → fold_left first_wins vs (Some e) = Some e.
Proof.
  intros He. induction vs as [|v vs IH]; [done|]. simpl.
  rewrite first_wins_truthy; done.
Qed.

Lemma first_contact_email cs :
  fold_left first_wins (map contact_email cs) None = head (omap contact_email cs).
Proof.
  induction cs as [|c cs IH]; [done|]. cbn [map fold_left]. csimpl.
  destruct (contact_email c) as [e|] eqn:Ee.
  - pose proof (contact_email_nonempty _ _ Ee) as Hne.
    unfold first_wins at 2. simpl. rewrite Hne. simpl.
    by apply fold_first_wins_set.
  - unfold first_wins at 2. simpl. apply IH.
Qed.

(** [extract_from_schema] returns the record of the block when the block is
    well typed, and raises [AttributeError] when it is not. *)
Lemma address_step (r : Profile) (a : json) :
  match a with
  | JDict address =>
      _clean_text_json (dict_get address "streetAddress") ≫= λ st,
      _clean_text_json (dict_get address "postalCode") ≫= λ zp,
      _clean_text_json (dict_get address "addressLocality") ≫= λ ct,
      Ok (setattr (setattr (setattr r f_street st) f_zip_code zp) f_city ct)
  | _ => Ok r
  end
  = match a with
    | JDict address =>
        if texty (dict_get address "streetAddress")
           && texty (dict_get address "postalCode")
           && texty (dict_get address "addressLocality")
        then Ok (setattr (setattr (setattr r
                   f_street (cleaned_text (dict_get address "streetAddress")))
                   f_zip_code (cleaned_text (dict_get address "postalCode")))
                   f_city (cleaned_text (dict_get address "addressLocality")))
        else Raise AttributeError
    | _ => Ok r
    end.
Proof.
  destruct a as [| | | |l|address]; try done.
  rewrite !_clean_text_json_exact.
  by destruct (texty (dict_get address "streetAddress")),
              (texty (dict_get address "postalCode")),
              (texty (dict_get address "addressLocality")).
Qed.

Lemma email_step (r : Profile) (v : json) :
  (if negb (Py.truthy (email r))
   then _clean_text_json v ≫= λ em, Ok (setattr r f_email em)
   else Ok r)
  = if Py.truthy (email r) then Ok r
    else if texty v then Ok (setattr r f_email (cleaned_text v))
         else Raise AttributeError.
Proof.
  destruct (Py.truthy (email r)); cbn [negb]; [done|].
  rewrite _clean_text_json_exact. by destruct (texty v).
Qed.

Lemma extract_from_schema_exact item :
  extract_from_schema item =
  if well_typed item then Ok (schema_profile item) else Raise AttributeError.
Proof.
  unfold extract_from_schema, well_typed. cbv zeta.
  rewrite (_clean_text_json_exact (dict_get item "name")).
  destruct (texty (dict_get item "name")); cbn [andb mbind result_bind]; [|done].
  rewrite foldM_telephone_step_exact.
  destruct (forallb texty _); cbn [andb mbind result_bind]; [|done].
  rewrite foldM_contact_step_exact.
  destruct (forallb contact_well_typed _); cbn [andb mbind result_bind]; [|done].
  rewrite collected_phones.
  change (email (setattr Profile_new f_name (cleaned_text (dict_get item "name"))))
    with (@None string).
  rewrite first_contact_email. fold (contact_emails item).
  rewrite address_step.
  assert (Py.truthy (head (contact_emails item))
          = match contact_emails item with [] => false | _ => true end) as Hem.
  { unfold contact_emails. destruct (omap contact_email _) as [|e es] eqn:E; [done|].
    simpl. assert (e ∈ omap contact_email
      (_ensure_list (dict_get item "contactPoint"))) as Hin by (rewrite E; left).
    apply list_elem_of_omap in Hin as (c & _ & Hc).
    by eapply contact_email_nonempty. }
  unfold schema_profile, address_part.
  generalize (dedup (discovered_phones item)). intros phones.
  destruct (contact_emails item) as [|e es]; simpl in Hem;
    destruct (dict_get item "address") as [| | | |l|address];
    try destruct (texty (dict_get address "streetAddress")
                  && texty (dict_get address "postalCode")
                  && texty (dict_get address "addressLocality"));
    cbn [andb mbind result_bind]; try done;
    rewrite email_step;
    destruct phones as [|t0 [|t1 ps]]; simpl; rewrite ?Hem;
    try reflexivity; destruct (texty (dict_get item "email")); reflexivity.
Qed.

(** ** Clean fields *)

Lemma cleaned_text_clean v : clean (cleaned_text v).
Proof. destruct v; try done. apply _clean_text_clean. Qed.

Lemma clean_lookup (l : list string) i :
  (∀ s, s ∈ l → clean (Some s)) → clean (l !! i).
Proof.
  intros H. destruct (l !! i) as [s|] eqn:E; [|done].
  apply H. by eapply list_elem_of_lookup_2.
Qed.

Lemma discovered_phones_clean item s :
  s ∈ dedup (discovered_phones item) → clean (Some s).
Proof.
  rewrite elem_of_dedup. unfold discovered_phones.
  intros [H|H]%elem_of_app; apply list_elem_of_omap in H as (v & _ & Hv).
  - rewrite phone_value_cleaned_text in Hv. rewrite <- Hv. apply cleaned_text_clean.
  - destruct v; try done. simpl in Hv. rewrite phone_value_cleaned_text in Hv.
    rewrite <- Hv. apply cleaned_text_clean.
Qed.

Lemma schema_profile_clean item f : clean (getattr (schema_profile item) f).
Proof.
  destruct f; simpl; try apply cleaned_text_clean;
    try (apply clean_lookup, discovered_phones_clean);
    try (unfold address_part; destruct (dict_get item "address"); try done;
         apply cleaned_text_clean); try done.
  destruct (contact_emails item) as [|e es] eqn:E; [apply cleaned_text_clean|].
  assert (e ∈ contact_emails item) as Hin by (rewrite E; left).
  apply list_elem_of_omap in Hin as (c & _ & Hc).
  destruct c; try done. simpl in Hc. rewrite <- Hc. apply cleaned_text_clean.
Qed.

Lemma extract_microdata_clean soup f : clean (getattr (extract_microdata soup) f).
Proof.
  assert (∀ i, clean (dedup (discovered_phones_microdata soup) !! i)) as Hph.
  { intros i. apply clean_lookup. intros s Hs. rewrite elem_of_dedup in Hs.
    apply list_elem_of_omap in Hs as (t & _ & Ht). rewrite <- Ht.
    apply _clean_text_clean. }
  destruct (extract_microdata_phones soup) as [Hp Hp2].
  destruct f; try (simpl; rewrite ?Hp, ?Hp2; apply Hph);
    try (rewrite extract_microdata_url; done);
    unfold extract_microdata;
    repeat match goal with
           | |- context [match ?x with _ => _ end] => destruct x
           end; simpl; try done;
    match goal with
    | |- clean (if Py.nonempty (Py.strip ?s) then _ else _) =>
        exact (_clean_text_clean (Some s))
    end.
Qed.

Lemma first_wins_clean old new : clean old → clean new → clean (first_wins old new).
Proof. unfold first_wins. by destruct (_ && _). Qed.

Lemma merge_clean base extra f :
  clean (getattr base f) → clean (getattr extra f) →
  clean (getattr (merge_profiles base extra) f).
Proof. rewrite getattr_merge_profiles. apply first_wins_clean. Qed.

Lemma merges_clean extras base f :
  clean (getattr base f) → Forall (fun e => clean (getattr e f)) extras →
  clean (getattr (fold_left merge_profiles extras base) f).
Proof.
  intros Hb HF. revert base Hb. induction HF as [|e extras He HF IH]; intros base Hb;
    [done|].
  simpl. apply IH. by apply merge_clean.
Qed.

(** ** The record of a page *)

Lemma first_wins_assoc a b c :
  first_wins (first_wins a b) c = first_wins a (first_wins b c).
Proof.
  unfold first_wins.
  destruct (Py.truthy a) eqn:Ea, (Py.truthy b) eqn:Eb, (Py.truthy c) eqn:Ec;
    simpl; rewrite ?Ea, ?Eb, ?Ec; simpl; rewrite ?Ea, ?Eb, ?Ec; done.
Qed.

Lemma merge_profiles_assoc a b c :
  merge_profiles (merge_profiles a b) c = merge_profiles a (merge_profiles b c).
Proof.
  apply profile_ext. intros f. rewrite !getattr_merge_profiles.
  apply first_wins_assoc.
Qed.

Lemma getattr_merges extras base f :
  getattr (fold_left merge_profiles extras base) f =
  if Py.truthy (getattr base f) then getattr base f
  else match List.find Py.truthy (map (fun e => getattr e f) extras) with
       | Some v => v
       | None => getattr base f
       end.
Proof.
  revert base. induction extras as [|e extras IH]; intros base.
  - simpl. by destruct (Py.truthy (getattr base f)).
  - cbn [fold_left map List.find]. rewrite IH, getattr_merge_profiles.
    unfold first_wins.
    destruct (Py.truthy (getattr base f)) eqn:Eb,
             (Py.truthy (getattr e f)) eqn:Ee; simpl; rewrite ?Eb, ?Ee; done.
Qed.

Lemma merge_schemas_exact cands r :
  (merge_schemas cands r).1 =
  if forallb well_typed cands
  then Ok (fold_left merge_profiles (map schema_profile cands) r)
  else Raise AttributeError.
Proof.
  revert r. induction cands as [|d cands IH]; intros r; [done|].
  cbn [merge_schemas forallb map fold_left]. rewrite extract_from_schema_exact.
  destruct (well_typed d); [|done]. specialize (IH (merge_profiles r (schema_profile d))).
  by destruct (merge_schemas cands _).
Qed.

Lemma parse_profile_page_exact soup url :
  (parse_profile_page soup url).1 =
  if forallb well_typed (_iter_schema_candidates soup)
  then Ok (fold_left merge_profiles (page_sources soup url) (Profile_of_url url))
  else Raise AttributeError.
Proof.
  unfold parse_profile_page. fold (Profile_of_url url).
  pose proof (merge_schemas_exact (_iter_schema_candidates soup) (Profile_of_url url))
    as Hm.
  destruct (merge_schemas _ _) as [[r|e] evs]; simpl in Hm;
    destruct (forallb well_typed _); try discriminate; [|by injection Hm as ->].
  injection Hm as ->. unfold page_sources. fold (tier1_record soup url).
  unfold needs_fallback. rewrite fold_left_app. fold (tier1_record soup url).
  by destruct (negb _ || negb _).
Qed.

Lemma drop_spaces_all l :
  Forall (fun a => Py.isspace a = true) l → drop_spaces l = [].
Proof. induction 1 as [|a l Ha _ IH]; simpl; [done|]. by rewrite Ha. Qed.

Lemma strip_blank_iff s :
  Py.strip s = "" ↔ Forall (fun a => Py.isspace a = true) (chars s).
Proof.
  split.
  - intros He. destruct (strip_spec s) as [(l & r & Hs & Hl & Hr) _].
    rewrite He in Hs. simpl in Hs. rewrite Hs. by apply Forall_app.
  - intros HF. apply chars_inj.
    rewrite chars_strip, (drop_spaces_all (chars s)) by done. reflexivity.
Qed.

(** X1.  [_clean_text] returns either nothing or a text that is not empty and
    has no white space at its ends; it returns nothing exactly for a missing
    value and for a text of white space only; applied to its own result it
    changes nothing. *)
Theorem clean_text_trims_or_drops (v : option string) :
  clean (_clean_text v) ∧
  (_clean_text v = None ↔
     v = None ∨ ∃ s, v = Some s ∧ Forall (fun a => Py.isspace a = true) (chars s)) ∧
  _clean_text (_clean_text v) = _clean_text v.
Proof.
  split; [apply _clean_text_clean|]. split.
  - destruct v as [s|]; simpl; [|by split; [left|]].
    split.
    + destruct (Py.strip s) eqn:E; simpl; [|done]. intros _. right. exists s.
      split; [done|]. by apply strip_blank_iff.
    + intros [?|(s' & [= <-] & HF)]; [done|].
      apply strip_blank_iff in HF. by rewrite HF.
  - apply _clean_text_of_clean, _clean_text_clean.
Qed.

(** X2.  A block whose consulted values are all [null] or strings yields the
    record made of its trimmed name, the first two distinct phones, the parts
    of its address object, and the first contact-point email or else the
    top-level email; any other block makes [extract_from_schema] raise
    [AttributeError]. *)
Theorem extract_from_schema_record_or_error (item : dict) :
  extract_from_schema item =
  if well_typed item then Ok (schema_profile item) else Raise AttributeError.
Proof. apply extract_from_schema_exact. Qed.

Lemma extract_from_schema_clean item p f :
  extract_from_schema item = Ok p → clean (getattr p f).
Proof.
  intros H. rewrite extract_from_schema_exact in H.
  destruct (well_typed item); [|done]. injection H as <-.
  apply schema_profile_clean.
Qed.

(** X3.  Every field of a record returned by [extract_from_schema] or by
    [extract_microdata], and every extracted field of a parsed page, is absent
    or a non-empty text without white space at its ends: no empty string is
    ever stored. *)
Theorem extracted_fields_are_clean :
  (∀ item p f, extract_from_schema item = Ok p → clean (getattr p f))
  ∧ (∀ soup f, clean (getattr (extract_microdata soup) f))
  ∧ (∀ soup url p evs f,
       parse_profile_page soup url = (Ok p, evs) → extracted_field f →
       clean (getattr p f)).
Proof.
  split; [|split].
  - intros item p f. apply extract_from_schema_clean.
  - apply extract_microdata_clean.
  - intros soup url p evs f Hp Hf.
    pose proof (parse_profile_page_exact soup url) as He. rewrite Hp in He.
    simpl in He. destruct (forallb well_typed _); [|done]. injection He as ->.
    apply merges_clean.
    + by destruct f.
    + unfold page_sources. apply Forall_app. split.
      * apply Forall_forall. intros e (d & -> & _)%list_elem_of_fmap.
        apply schema_profile_clean.
      * destruct (needs_fallback _); [|constructor].
        constructor; [apply extract_microdata_clean | constructor].
Qed.

Lemma extracted_fields_are_clean_witness :
  clean (getattr Samples.many_phones f_phone2)
  ∧ clean (getattr Samples.phone_only_record f_phone2).
Proof.
  destruct extracted_fields_are_clean as (Hschema & _ & Hpage). split.
  - apply (Hschema Samples.many_phones_block). vm_compute. reflexivity.
  - apply (Hpage Samples.phone_only_page Samples.url Samples.phone_only_record
             [ev_extract_from_schema Samples.office_block; ev_extract_microdata]).
    + vm_compute. reflexivity.
    + discriminate.
Defined.

(** X4.  Merging is associative, and the empty record is a left unit
    exactly on the records that hold no empty string: merging candidates one
    after the other into a record gives what merging their merge into it
    gives, and merging [e] into the empty record gives [e] back if and only
    if no field of [e] is the empty string (white space at the ends of a
    value does not matter). *)
Theorem merge_profiles_monoid :
  (∀ a b c,
     merge_profiles (merge_profiles a b) c = merge_profiles a (merge_profiles b c))
  ∧ (∀ e, (∀ f, getattr e f ≠ Some "") → merge_profiles Profile_new e = e)
  ∧ (∀ e, merge_profiles Profile_new e = e → ∀ f, getattr e f ≠ Some "").
Proof.
  split; [apply merge_profiles_assoc|]. split.
  - intros e He. apply profile_ext. intros f. rewrite getattr_merge_profiles.
    specialize (He f). unfold first_wins.
    replace (getattr Profile_new f) with (@None string) by (by destruct f).
    destruct (getattr e f) as [s|]; simpl; [|done]. by destruct s.
  - intros e He f Hf. apply (f_equal (fun p => getattr p f)) in He.
    rewrite getattr_merge_profiles, Hf in He. unfold first_wins in He.
    replace (getattr Profile_new f) with (@None string) in He by (by destruct f).
    simpl in He. discriminate.
Qed.

Lemma merge_profiles_monoid_witness :
  merge_profiles Profile_new Samples.padded = Samples.padded.
Proof.
  apply (proj1 (proj2 merge_profiles_monoid)).
  intros f. destruct f; vm_compute; discriminate.
Defined.

(** X5.  [parse_profile_page] returns a record exactly when every tier-1
    candidate is well typed, and the record is then the page's sources merged
    in priority order into the record created with the URL; a single
    ill-typed candidate makes it raise [AttributeError], whatever the other
    blocks and the micro-attributes hold. *)
Theorem parse_profile_page_record_or_error (soup : Soup) (url : string) :
  (parse_profile_page soup url).1 =
  if forallb well_typed (_iter_schema_candidates soup)
  then Ok (fold_left merge_profiles (page_sources soup url) (Profile_of_url url))
  else Raise AttributeError.
Proof. apply parse_profile_page_exact. Qed.

(** X6.  In the record of a page, every extracted field holds the first
    non-empty value among the page's sources in priority order (blocks in
    document order, then the micro-attributes if the fallback runs), and is
    absent when no source has one. *)
Theorem page_field_is_first_non_empty (soup : Soup) (url : string) p evs f :
  parse_profile_page soup url = (Ok p, evs) →
  extracted_field f →
  getattr p f = first_truthy (map (fun e => getattr e f) (page_sources soup url)).
Proof.
  intros Hp Hf. pose proof (parse_profile_page_exact soup url) as He.
  rewrite Hp in He. simpl in He. destruct (forallb well_typed _); [|done].
  injection He as ->. rewrite getattr_merges. unfold first_truthy.
  replace (getattr (Profile_of_url url) f) with (@None string) by (by destruct f).
  simpl. by destruct (List.find _ _).
Qed.

Lemma page_field_is_first_non_empty_witness :
  getattr Samples.phone_only_record f_phone2
  = first_truthy (map (fun e => getattr e f_phone2)
                      (page_sources Samples.phone_only_page Samples.url)).
Proof.
  apply (page_field_is_first_non_empty Samples.phone_only_page Samples.url
           Samples.phone_only_record
           [ev_extract_from_schema Samples.office_block; ev_extract_microdata]).
  - vm_compute. reflexivity.
  - discriminate.
Defined.

(** ** The candidates of a page *)

Lemma elem_of_schema_items payload d :
  d ∈ schema_items payload ↔
  JDict d ∈ _ensure_list payload ∧
  ∃ s, JStr s ∈ _ensure_list (dict_get d "@type") ∧ Py.lower s ∈ schema_types.
Proof.
  unfold schema_items. rewrite elem_of_flat_map. split.
  - intros (item & Hitem & Hd). destruct item as [| | | |l|d']; try by apply elem_of_nil in Hd.
    destruct (existsb type_matches _) eqn:E; [|by apply elem_of_nil in Hd].
    apply list_elem_of_singleton in Hd as ->. split; [done|].
    apply existsb_exists in E as (t & Ht & Hm). destruct t; try done.
    exists s. split; [by apply list_elem_of_In|].
    unfold type_matches, Py.mem in Hm. by apply bool_decide_eq_true in Hm.
  - intros (Hd & s & Hs & Hm). exists (JDict d). split; [done|].
    assert (existsb type_matches (_ensure_list (dict_get d "@type")) = true) as ->.
    { apply existsb_exists. exists (JStr s). split; [by apply list_elem_of_In|].
      unfold type_matches, Py.mem. by apply bool_decide_eq_true. }
    left.
Qed.

Lemma candidates_of_scripts scripts tags hrefs :
  _iter_schema_candidates (mkSoup scripts tags hrefs)
  = flat_map (fun script => match script with
                            | Some payload => schema_items payload
                            | None => []
                            end) scripts.
Proof. reflexivity. Qed.

Lemma parse_profile_page_scripts s1 s2 tags hrefs url :
  _iter_schema_candidates (mkSoup s1 tags hrefs)
    = _iter_schema_candidates (mkSoup s2 tags hrefs) →
  parse_profile_page (mkSoup s1 tags hrefs) url
  = parse_profile_page (mkSoup s2 tags hrefs) url.
Proof.
  intros H. unfold parse_profile_page. rewrite H.
  destruct (merge_schemas _ _) as [[r|e] evs]; [|done].
  by destruct (negb _ || negb _).
Qed.

(** X7.  The tier-1 candidates of a page are exactly the JSON objects that
    are the payload of a structured-data script, or an element of a payload
    that is an array, and whose type, or one of whose types, is one of the
    four names in any case of letters; a script without a parsable payload
    changes neither the candidates nor the parsed record. *)
Theorem schema_candidates_exactly :
  (∀ soup d,
     d ∈ _iter_schema_candidates soup ↔
     ∃ payload,
       Some payload ∈ ld_json_scripts soup ∧
       JDict d ∈ _ensure_list payload ∧
       ∃ s, JStr s ∈ _ensure_list (dict_get d "@type") ∧
            Py.lower s ∈ schema_types)
  ∧ (∀ before after tags hrefs url,
       parse_profile_page (mkSoup (before ++ None :: after) tags hrefs) url
       = parse_profile_page (mkSoup (before ++ after) tags hrefs) url).
Proof.
  split.
  - intros soup d. unfold _iter_schema_candidates. rewrite elem_of_flat_map. split.
    + intros ([payload|] & Hs & Hd); [|by apply elem_of_nil in Hd].
      exists payload. split; [done|]. by apply elem_of_schema_items.
    + intros (payload & Hs & Hd). exists (Some payload). split; [done|].
      by apply elem_of_schema_items.
  - intros before after tags hrefs url. apply parse_profile_page_scripts.
    by rewrite !candidates_of_scripts, !flat_map_app.
Qed.

(** ** The worker's events *)





(** X9.  When the download succeeds, [fetch_profile] returns the parsed
    record if every tier-1 candidate of the page is well typed, and otherwise
    raises the [AttributeError] of the extractor: it does not turn a failed
    extraction into [None]. *)
Theorem fetch_profile_lets_extraction_errors_out web url delay_range soup :
  fetch_response web url = Ok soup →
  (fetch_profile web url delay_range).1 =
  if forallb well_typed (_iter_schema_candidates soup)
  then Ok (Some (fold_left merge_profiles (page_sources soup url) (Profile_of_url url)))
  else Raise AttributeError.
Proof.
  intros Hf. unfold fetch_profile. destruct delay_range as [min_delay max_delay].
  rewrite Hf. pose proof (parse_profile_page_exact soup url) as He.
  destruct (parse_profile_page soup url) as [[p|e] evs]; simpl in *;
    destruct (forallb well_typed _); try discriminate; by injection He as ->.
Qed.

Lemma fetch_profile_lets_extraction_errors_out_witness :
  (fetch_profile SampleWeb.pages Samples.url SampleWeb.delay_range).1 =
  if forallb well_typed (_iter_schema_candidates Samples.jane_page)
  then Ok (Some (fold_left merge_profiles (page_sources Samples.jane_page Samples.url)
                           (Profile_of_url Samples.url)))
  else Raise AttributeError.
Proof.
  apply (fetch_profile_lets_extraction_errors_out SampleWeb.pages Samples.url
           SampleWeb.delay_range Samples.jane_page).
  vm_compute. reflexivity.
Defined.

(** ** What an expansion explores *)

Section Explore.

Variable web : gmap string (result xml_text).

Lemma elem_of_fetched_app evs1 evs2 u :
  u ∈ fetched (evs1 ++ evs2) ↔ u ∈ fetched evs1 ∨ u ∈ fetched evs2.
Proof. by rewrite fetched_app, elem_of_app. Qed.

Lemma walk_locs_explored rec locs acc seen found seen' evs :
  (∀ loc s f s' e, rec loc s = Some (Ok f, s', e) → explored web loc s s' f e) →
  walk_locs rec locs acc seen = Some (Ok found, seen', evs) →
  explored_locs web locs acc seen seen' found evs.
Proof.
  intros Hrec. revert acc seen found seen' evs.
  induction locs as [|loc rest IH]; intros acc seen found seen' evs H; simpl in H.
  - injection H as <- <- <-. unfold explored_locs. simpl.
    split; [set_solver|]. split; [set_solver|]. split; [set_solver|].
    split; [set_solver|]. intros p. split; [auto|].
    intros [?|[[H _]|(u & H & _)]]; [done|by apply elem_of_nil in H..].
  - destruct (Py.nonempty loc) eqn:Hne; simpl in H.
    2:{ apply IH in H as (Hs & Hc' & Hc & Hd & He).
        split; [done|]. split; [|split; [done|split]].
        - intros l [->|Hl]%elem_of_cons Hsm; [|by apply Hc'].
          unfold is_sitemap_loc in Hsm. by rewrite Hne in Hsm.
        - intros u Hu. destruct (Hd u Hu) as (l & Hl & Hsm & Hr).
          exists l. split; [by right | done].
        - intros p. rewrite He. split.
          + intros [?|[[Hl Hp]|?]]; [auto| |auto]. right. left. split; [by right|done].
          + intros [?|[[[->|Hl]%elem_of_cons Hp]|?]]; [auto| | |auto].
            * unfold is_profile_loc in Hp. by rewrite Hne in Hp.
            * right. left. done. }
    fold (has_sitemap_suffix loc) in H.
    destruct (has_sitemap_suffix loc) eqn:Hsuf.
    + destruct (rec loc seen) as [[[[f1|e] s1] evs1]|] eqn:Hr; [| done | done].
      destruct (walk_locs rec rest (acc ++ f1) s1) as [[[res2 s2] evs2]|] eqn:Hw;
        [|done].
      injection H as -> <- <-.
      apply Hrec in Hr as (Hs1 & Hu1 & Hc1 & Hd1 & He1).
      apply IH in Hw as (Hs2 & Hc'2 & Hc2 & Hd2 & He2).
      split; [|split; [|split; [|split]]].
      * rewrite Hs2, Hs1, fetched_app. set_solver.
      * intros l [->|Hl]%elem_of_cons Hsm; [|by apply Hc'2]. set_solver.
      * intros u v [Hu|Hu]%elem_of_fetched_app Hl; [|by eapply Hc2].
        specialize (Hc1 u v Hu Hl). set_solver.
      * intros u [Hu|Hu]%elem_of_fetched_app.
        -- exists loc. split; [left|]. split; [|by apply Hd1].
           unfold is_sitemap_loc. by rewrite Hne, Hsuf.
        -- destruct (Hd2 u Hu) as (l & Hl & Hsm & Hreach).
           exists l. split; [by right | done].
      * intros p. rewrite He2, elem_of_app, He1. split.
        -- intros [[?|(u & Hu & Hp)]|[[Hl Hp]|(u & Hu & Hp)]]; [auto| | |].
           ++ right. right. exists u. split; [|done].
              apply elem_of_fetched_app. auto.
           ++ right. left. split; [by right | done].
           ++ right. right. exists u. split; [|done].
              apply elem_of_fetched_app. auto.
        -- intros [?|[[[->|Hl]%elem_of_cons Hp]|(u & [Hu|Hu]%elem_of_fetched_app & Hp)]].
           ++ auto.
           ++ unfold is_profile_loc in Hp. rewrite Hsuf, andb_false_r in Hp. done.
           ++ right. left. done.
           ++ left. right. eauto.
           ++ right. right. eauto.
    + fold PROFILE_FRAGMENT in H.
      destruct (Py.contains (Py.lower loc) PROFILE_FRAGMENT) eqn:Hfrag.
      * apply IH in H as (Hs & Hc' & Hc & Hd & He).
        split; [done|]. split; [|split; [done|split]].
        -- intros l [->|Hl]%elem_of_cons Hsm; [|by apply Hc'].
           unfold is_sitemap_loc in Hsm. by rewrite Hsuf, andb_false_r in Hsm.
        -- intros u Hu. destruct (Hd u Hu) as (l & Hl & Hsm & Hr).
           exists l. split; [by right | done].
        -- intros p. rewrite He, elem_of_app, list_elem_of_singleton. split.
           ++ intros [[?| ->]|[[Hl Hp]|?]]; [auto| | |auto].
              ** right. left. split; [left|].
                 unfold is_profile_loc. by rewrite Hne, Hsuf, Hfrag.
              ** right. left. split; [by right | done].
           ++ intros [?|[[[->|Hl]%elem_of_cons Hp]|?]]; [auto|auto| |auto].
              right. left. done.
      * apply IH in H as (Hs & Hc' & Hc & Hd & He).
        split; [done|]. split; [|split; [done|split]].
        -- intros l [->|Hl]%elem_of_cons Hsm; [|by apply Hc'].
           unfold is_sitemap_loc in Hsm. by rewrite Hsuf, andb_false_r in Hsm.
        -- intros u Hu. destruct (Hd u Hu) as (l & Hl & Hsm & Hr).
           exists l. split; [by right | done].
        -- intros p. rewrite He. split.
           ++ intros [?|[[Hl Hp]|?]]; [auto| |auto]. right. left. split; [by right|done].
           ++ intros [?|[[[->|Hl]%elem_of_cons Hp]|?]]; [auto| | |auto].
              ** unfold is_profile_loc in Hp. by rewrite Hfrag, andb_false_r in Hp.
              ** right. left. done.
Qed.


Lemma fetched_pre url evs0 evs :
  fetched evs0 = [] →
  fetched (ev_log DEBUG (msg_downloading_sitemap url) :: ev_get url :: evs0 ++ evs)
  = url :: fetched evs.
Proof.
  intros H.
  change (fetched ([ev_log DEBUG (msg_downloading_sitemap url); ev_get url]
                   ++ evs0 ++ evs) = url :: fetched evs).
  rewrite !fetched_app, H. done.
Qed.

Lemma walk_explored depth url seen found seen' evs :
  walk depth web url seen = Some (Ok found, seen', evs) →
  explored web url seen seen' found evs.
Proof.
  revert url seen found seen' evs.
  induction depth as [|d IH]; intros url seen found seen' evs H; [done|].
  simpl in H. destruct (decide (url ∈ seen)) as [Hin|Hin].
  { injection H as <- <- <-. unfold explored. simpl.
    split; [set_solver|]. split; [done|]. split; [set_solver|]. split; [set_solver|].
    intros p. split; [by intros ?%elem_of_nil|].
    intros (u & Hu & _). by apply elem_of_nil in Hu. }
  destruct (fetch_response web url) as [body|e] eqn:Hf; [|done].
  pose proof (fetched_extract_loc_values body) as Hlog.
  destruct (extract_loc_values body) as [locs evs0] eqn:Hlocs. simpl in Hlog.
  destruct (walk_locs (walk d web) locs [] (seen ∪ {[url]}))
    as [[[res2 s2] evs2]|] eqn:Hw; [|done].
  injection H as -> <- <-.
  apply walk_locs_explored in Hw as (Hs & Hc' & Hc & Hd & He); [|exact IH].
  assert (∀ loc, lists web url loc ↔ loc ∈ locs) as Hlists.
  { intros loc. unfold lists. rewrite Hf. split.
    - intros (b & [= <-] & Hl). by rewrite Hlocs in Hl.
    - intros Hl. exists body. by rewrite Hlocs. }
  unfold explored. rewrite (fetched_pre url evs0 evs2 Hlog).
  split; [|split; [|split; [|split]]].
  - rewrite Hs. set_solver.
  - rewrite Hs. set_solver.
  - intros u v [->|Hu]%elem_of_cons Hl; [|by eapply Hc].
    destruct Hl as [Hl Hsm]. apply Hc'; [by apply Hlists | done].
  - intros u [->|Hu]%elem_of_cons; [apply rtc_refl|].
    destruct (Hd u Hu) as (loc & Hl & Hsm & Hr).
    eapply rtc_l; [|exact Hr]. split; [by apply Hlists | done].
  - intros p. rewrite He. split.
    + intros [H|[[Hl Hp]|(u & Hu & Hp)]]; [by apply elem_of_nil in H| |].
      * exists url. split; [left|]. split; [by apply Hlists | done].
      * exists u. split; [by right | done].
    + intros (u & [->|Hu]%elem_of_cons & Hl & Hp).
      * right. left. split; [by apply Hlists | done].
      * right. right. eauto.
Qed.

(** *** Failures *)

Lemma all_but_failure_app f1 evs1 res evs2 :
  all_but_failure web (Ok f1) evs1 → all_but_failure web res evs2 →
  all_but_failure web res (evs1 ++ evs2).
Proof.
  intros H1 H2. destruct res as [f2|e]; simpl in *; rewrite fetched_app.
  - by apply Forall_app.
  - destruct H2 as (us & u & -> & Hus & Hu). exists (fetched evs1 ++ us), u.
    split; [by rewrite app_assoc|]. split; [by apply Forall_app | done].
Qed.

Lemma walk_locs_failure rec locs acc seen res seen' evs :
  (∀ loc s r s' e, rec loc s = Some (r, s', e) → all_but_failure web r e) →
  walk_locs rec locs acc seen = Some (res, seen', evs) →
  all_but_failure web res evs.
Proof.
  intros Hrec. revert acc seen res seen' evs.
  induction locs as [|loc rest IH]; intros acc seen res seen' evs H; simpl in H.
  - injection H as <- <- <-. simpl. constructor.
  - destruct (negb (Py.nonempty loc)); [by eapply IH|].
    destruct (_ || _).
    + destruct (rec loc seen) as [[[[f1|e] s1] evs1]|] eqn:Hr; [| |done].
      * destruct (walk_locs rec rest (acc ++ f1) s1)
          as [[[res2 s2] evs2]|] eqn:Hw; [|done].
        injection H as <- <- <-.
        eapply all_but_failure_app; [by eapply Hrec | by eapply IH].
      * injection H as <- <- <-. by eapply Hrec.
    + destruct (Py.contains _ _); by eapply IH.
Qed.

Lemma walk_failure depth url seen res seen' evs :
  walk depth web url seen = Some (res, seen', evs) → all_but_failure web res evs.
Proof.
  revert url seen res seen' evs.
  induction depth as [|d IH]; intros url seen res seen' evs H; [done|].
  simpl in H. destruct (decide (url ∈ seen)) as [Hin|Hin].
  { injection H as <- <- <-. simpl. constructor. }
  destruct (fetch_response web url) as [body|e] eqn:Hf.
  - pose proof (fetched_extract_loc_values body) as Hlog.
    destruct (extract_loc_values body) as [locs evs0]. simpl in Hlog.
    destruct (walk_locs (walk d web) locs [] (seen ∪ {[url]}))
      as [[[res2 s2] evs2]|] eqn:Hw; [|done].
    injection H as <- <- <-.
    apply walk_locs_failure in Hw; [|exact IH].
    apply (all_but_failure_app [] [ev_log DEBUG (msg_downloading_sitemap url); ev_get url]
             res2 (evs0 ++ evs2)).
    + simpl. constructor; [by exists body | constructor].
    + destruct res2 as [f|e]; simpl in *; by rewrite fetched_app, Hlog.
  - injection H as <- <- <-. simpl. exists [], url. split; [done|]. split; [constructor|done].
Qed.


(** *** From [walk] back to [expand_sitemap] *)

Lemma expand_sitemap_walk depth url σ res σ' evs :
  expand_sitemap depth web url None σ = Some (res, σ') →
  trace σ' = trace σ ++ evs →
  ∃ seen', walk depth web url ∅ = Some (res, seen', evs).
Proof.
  rewrite expand_sitemap_top. intros H Ht.
  destruct (walk depth web url ∅) as [[[res1 s1] evs1]|]; [|done].
  simpl in H. injection H as <- <-. simpl in Ht.
  apply app_inv_head in Ht as <-. eauto.
Qed.

Lemma explored_reachable url seen' found evs :
  explored web url ∅ seen' found evs →
  ∀ u, u ∈ fetched evs ↔ reachable web url u.
Proof.
  intros (Hs & Hu & Hc & Hd & _) u. split; [apply Hd|].
  assert (∀ v, v ∈ seen' ↔ v ∈ fetched evs) as Hseen by (rewrite Hs; set_solver).
  intros Hr. apply Hseen. revert u Hr. unfold reachable. apply rtc_ind_r; [done|].
  intros y z _ Hyz IH. apply (Hc y z); [by apply Hseen | done].
Qed.

Lemma collect_seeds_downloads seeds urls σ urls' σ' :
  collect_seeds (S (size web)) web seeds urls σ = Some (urls', σ') →
  fetched (trace σ') = fetched (trace σ) ++ flat_map (seed_downloads web) seeds.
Proof.
  revert urls σ. induction seeds as [|seed rest IH]; intros urls σ;
    cbn [collect_seeds flat_map].
  - intros [= <- <-]. by rewrite app_nil_r.
  - unfold seed_downloads at 1. rewrite !expand_sitemap_top.
    destruct (walk (S (size web)) web seed ∅) as [[[[found|e] s] evs]|];
      cbn [fmap option_fmap option_map lift]; [| |done].
    + intros H. apply IH in H. rewrite H. cbn [trace initial_state].
      rewrite fetched_app, <- app_assoc. done.
    + intros H. apply IH in H. rewrite H. cbn [trace emit initial_state].
      rewrite !fetched_app, <- !app_assoc. done.
Qed.

Lemma found_by_same_seeds depth seeds1 seeds2 :
  (∀ s, s ∈ seeds1 ↔ s ∈ seeds2) →
  found_by depth web seeds1 = found_by depth web seeds2.
Proof.
  assert (∀ seeds u, u ∈ found_by depth web seeds ↔
            ∃ seed, seed ∈ seeds ∧
              u ∈ match walk depth web seed ∅ with
                  | Some (Ok found, _, _) => list_to_set found
                  | _ => (∅ : gset string)
                  end) as Hin.
  { induction seeds as [|seed rest IH]; intros u; cbn [found_by].
    - split; [set_solver|]. intros (? & H & _). by apply elem_of_nil in H.
    - rewrite elem_of_union, IH. split.
      + intros [H|(s & Hs & H)]; [exists seed; split; [left|done]|].
        exists s. split; [by right | done].
      + intros (s & [->|Hs]%elem_of_cons & H); [by left|]. right. eauto. }
  intros Hsame. apply set_eq. intros u. rewrite !Hin.
  split; intros (s & Hs & H); exists s; (split; [by apply Hsame | done]).
Qed.

End Explore.

(** ** C4: the profile URLs of a seed list *)

Section Seeds.

Variable web : gmap string (result xml_text).

(** Whatever the outcome, a sitemap downloaded by the loop over [locs] is
    reached from one of the nested sitemaps among [locs]. *)
Lemma walk_locs_reached rec locs acc seen res seen' evs :
  (∀ loc s r s' e, rec loc s = Some (r, s', e) →
                   ∀ u, u ∈ fetched e → reachable web loc u) →
  walk_locs rec locs acc seen = Some (res, seen', evs) →
  ∀ u, u ∈ fetched evs →
       ∃ loc, loc ∈ locs ∧ is_sitemap_loc loc = true ∧ reachable web loc u.
Proof.
  intros Hrec. revert acc seen res seen' evs.
  induction locs as [|loc rest IH]; intros acc seen res seen' evs H u Hu; simpl in H.
  - injection H as <- <- <-. by apply elem_of_nil in Hu.
  - assert (∀ acc seen,
              walk_locs rec rest acc seen = Some (res, seen', evs) →
              ∃ l, l ∈ loc :: rest ∧ is_sitemap_loc l = true ∧ reachable web l u)
      as Hrest.
    { intros acc0 seen0 H0. destruct (IH _ _ _ _ _ H0 u Hu) as (l & Hl & Hsm & Hr).
      exists l. split; [by right | done]. }
    destruct (Py.nonempty loc) eqn:Hne; simpl in H; [|by eapply Hrest].
    fold (has_sitemap_suffix loc) in H.
    destruct (has_sitemap_suffix loc) eqn:Hsuf.
    + assert (is_sitemap_loc loc = true) as Hsm
        by (unfold is_sitemap_loc; by rewrite Hne, Hsuf).
      destruct (rec loc seen) as [[[[f1|e] s1] evs1]|] eqn:Hr; [| |done].
      * destruct (walk_locs rec rest (acc ++ f1) s1)
          as [[[res2 s2] evs2]|] eqn:Hw; [|done].
        injection H as <- <- <-.
        apply elem_of_fetched_app in Hu as [Hu|Hu].
        -- exists loc. split; [left|]. split; [done|]. by eapply Hrec.
        -- destruct (IH _ _ _ _ _ Hw u Hu) as (l & Hl & Hsm' & Hreach).
           exists l. split; [by right | done].
      * injection H as <- <- <-. exists loc. split; [left|]. split; [done|].
        by eapply Hrec.
    + destruct (Py.contains _ _); by eapply Hrest.
Qed.

(** Whatever the outcome, a sitemap downloaded by an expansion is reached
    from its URL. *)
Lemma walk_reached depth url seen res seen' evs :
  walk depth web url seen = Some (res, seen', evs) →
  ∀ u, u ∈ fetched evs → reachable web url u.
Proof.
  revert url seen res seen' evs.
  induction depth as [|d IH]; intros url seen res seen' evs H u Hu; [done|].
  simpl in H. destruct (decide (url ∈ seen)) as [Hin|Hin].
  { injection H as <- <- <-. by apply elem_of_nil in Hu. }
  destruct (fetch_response web url) as [body|e] eqn:Hf.
  - pose proof (fetched_extract_loc_values body) as Hlog.
    destruct (extract_loc_values body) as [locs evs0] eqn:Hlocs. simpl in Hlog.
    destruct (walk_locs (walk d web) locs [] (seen ∪ {[url]}))
      as [[[res2 s2] evs2]|] eqn:Hw; [|done].
    injection H as <- <- <-.
    rewrite (fetched_pre url evs0 evs2 Hlog) in Hu.
    apply elem_of_cons in Hu as [->|Hu]; [apply rtc_refl|].
    destruct (walk_locs_reached _ _ _ _ _ _ _ IH Hw u Hu) as (loc & Hl & Hsm & Hr).
    eapply rtc_l; [|exact Hr]. split; [|done].
    exists body. split; [done|]. by rewrite Hlocs.
  - injection H as <- <- <-. simpl in Hu.
    apply list_elem_of_singleton in Hu as ->. apply rtc_refl.
Qed.

(** An expansion returns exactly when every sitemap reached from the seed
    downloads, and then returns the profile locations those sitemaps list. *)
Lemma walk_complete depth seed res seen' evs :
  walk depth web seed ∅ = Some (res, seen', evs) →
  match res with
  | Ok found => seed_complete web seed ∧ ∀ p, p ∈ found ↔ profile_below web seed p
  | Raise e => ¬ seed_complete web seed
  end.
Proof.
  intros Hw. pose proof (walk_failure web _ _ _ _ _ _ Hw) as Hfail.
  destruct res as [found|e].
  - apply walk_explored in Hw. pose proof (explored_reachable web _ _ _ _ Hw) as Hr.
    split.
    + intros u Hu. simpl in Hfail. rewrite Forall_forall in Hfail.
      apply Hfail. by apply Hr.
    + destruct Hw as (_ & _ & _ & _ & He). intros p. rewrite He. unfold profile_below.
      split; intros (u & Hu & Hp); exists u; (split; [by apply Hr | done]).
  - destruct Hfail as (us & u & Hevs & _ & Hu). intros Hc.
    destruct (Hc u) as [body Hb]; [|congruence].
    eapply walk_reached; [exact Hw|]. rewrite Hevs, elem_of_app.
    right. apply list_elem_of_singleton. done.
Qed.

Lemma elem_of_found_by_complete seeds p :
  p ∈ found_by (S (size web)) web seeds ↔
  ∃ seed, seed ∈ seeds ∧ seed_complete web seed ∧ profile_below web seed p.
Proof.
  induction seeds as [|seed rest IH]; cbn [found_by].
  - split; [set_solver|]. intros (? & H & _). by apply elem_of_nil in H.
  - rewrite elem_of_union, IH. clear IH.
    destruct (walk_enough web (S (size web)) seed) as ([[res s] evs] & Hw & _); [lia|].
    rewrite Hw. apply walk_complete in Hw. split.
    + intros [Hp|(seed' & Hs & Hc)].
      * destruct res as [found|e]; [|set_solver].
        destruct Hw as [Hc Hfound]. exists seed. split; [left|]. split; [done|].
        apply Hfound. set_solver.
      * exists seed'. split; [by right | done].
    + intros (seed' & [->|Hs]%elem_of_cons & Hc & Hp).
      * left. destruct res as [found|e]; [|done].
        destruct Hw as [_ Hfound]. apply elem_of_list_to_set. by apply Hfound.
      * right. eauto.
Qed.

End Seeds.

(** C4.  At every depth bound above the number of sitemaps of the web,
    [collect_profile_urls] returns one and the same list: it is sorted by
    code points, has no duplicates, and holds exactly the profile locations
    listed by the sitemaps reached from those seeds from which every sitemap
    reached downloads; a seed from which some sitemap reached fails to
    download contributes nothing, whatever was read before the failure; and
    started from any other store, such as the one a first run leaves, it
    returns the same list. *)
Theorem collected_urls_of_complete_seeds web seeds σ :
  ∃ out σ',
    (∀ depth, (size web < depth)%nat →
       collect_profile_urls depth web seeds σ = Some (out, σ')) ∧
    Sorted String.le out ∧ NoDup out ∧
    (∀ p, p ∈ out ↔
       ∃ seed, seed ∈ seeds ∧ seed_complete web seed ∧ profile_below web seed p) ∧
    (∀ τ, ∃ τ', collect_profile_urls (S (size web)) web seeds τ = Some (out, τ')).
Proof.
  destruct (collect_seeds_found web seeds ∅ σ) as [σ1 Hc].
  set (urls := ∅ ∪ found_by (S (size web)) web seeds) in *.
  destruct (sorted_spec urls) as (Hsorted & Hnodup & Hin).
  exists (sorted urls), (emit (ev_log INFO (msg_total_profiles (length (sorted urls)))) σ1).
  split; [|split; [done|split; [done|split]]].
  - intros depth Hd. unfold collect_profile_urls.
    rewrite collect_seeds_enough, Hc by done. done.
  - intros u. rewrite Hin. unfold urls. rewrite <- elem_of_found_by_complete. set_solver.
  - intros τ. destruct (collect_seeds_found web seeds ∅ τ) as [τ1 Hτ].
    unfold collect_profile_urls. rewrite Hτ. fold urls. simpl. eauto.
Qed.

Lemma collected_urls_of_complete_seeds_witness :
  ∃ out σ',
    collect_profile_urls 5 SampleSitemaps.web
      [SampleSitemaps.index; SampleSitemaps.missing] initial_state = Some (out, σ') ∧
    Sorted String.le out ∧ NoDup out ∧
    (SampleSitemaps.anna ∈ out ↔
       ∃ seed,
         seed ∈ [SampleSitemaps.index; SampleSitemaps.missing] ∧
         seed_complete SampleSitemaps.web seed ∧
         profile_below SampleSitemaps.web seed SampleSitemaps.anna).
Proof.
  destruct (collected_urls_of_complete_seeds SampleSitemaps.web
              [SampleSitemaps.index; SampleSitemaps.missing] initial_state)
    as (out & σ' & Hrun & Hsorted & Hnodup & Hin & _).
  exists out, σ'. split; [|split; [done|split; [done|apply Hin]]].
  apply Hrun. vm_compute. lia.
Defined.

(** C4, as the claim has it, fails when a nested sitemap cannot be
    downloaded: the walker has downloaded [north] and [south], which list
    the profile URLs [bert] and [anna], and the output holds neither. *)
Lemma failed_download_drops_discovered_urls :
  ∃ σ',
    collect_profile_urls 5 SampleSitemaps.web_with_gap [SampleSitemaps.index]
      initial_state = Some ([], σ') ∧
    discovered SampleSitemaps.web_with_gap (trace σ') SampleSitemaps.bert ∧
    discovered SampleSitemaps.web_with_gap (trace σ') SampleSitemaps.anna.
Proof.
  eexists. split; [vm_compute; reflexivity|]. split.
  - exists SampleSitemaps.north. split; [|split].
    + apply list_elem_of_In. vm_compute. tauto.
    + eexists. split; [vm_compute; reflexivity|].
      apply list_elem_of_In. vm_compute. tauto.
    + vm_compute. reflexivity.
  - exists SampleSitemaps.south. split; [|split].
    + apply list_elem_of_In. vm_compute. tauto.
    + eexists. split; [vm_compute; reflexivity|].
      apply list_elem_of_In. vm_compute. tauto.
    + vm_compute. reflexivity.
Qed.

(** X10.  An expansion that returns has downloaded only sitemaps whose
    download succeeded; an expansion that raises has raised the exception of
    its last download, every download before that one succeeded, and nothing
    was downloaded after it. *)
Theorem expansion_stops_at_first_failure web depth url σ res σ' evs :
  expand_sitemap depth web url None σ = Some (res, σ') →
  trace σ' = trace σ ++ evs →
  all_but_failure web res evs.
Proof.
  intros H Ht. destruct (expand_sitemap_walk web depth url σ res σ' evs H Ht)
    as [seen' Hw].
  by eapply walk_failure.
Qed.

Lemma expansion_stops_at_first_failure_witness :
  all_but_failure SampleSitemaps.web_with_gap (Raise RequestException)
    (trace (store_after SampleSitemaps.web_with_gap SampleSitemaps.index)).
Proof.
  apply (expansion_stops_at_first_failure SampleSitemaps.web_with_gap 5
           SampleSitemaps.index initial_state (Raise RequestException)
           (store_after SampleSitemaps.web_with_gap SampleSitemaps.index));
    vm_compute; reflexivity.
Defined.

(** X11.  When a top-level expansion returns, the sitemaps it downloaded are
    exactly those reached from the seed through nested sitemap locations, and
    the URLs it returns are exactly the non-empty locations with the profile
    marker and without a sitemap suffix (both in any case of letters) that
    those sitemaps list. *)
Theorem expansion_explores_reachable_sitemaps web depth url σ found σ' evs :
  expand_sitemap depth web url None σ = Some (Ok found, σ') →
  trace σ' = trace σ ++ evs →
  (∀ u, u ∈ fetched evs ↔ reachable web url u) ∧
  (∀ p, p ∈ found ↔
        ∃ u, reachable web url u ∧ lists web u p ∧ is_profile_loc p = true).
Proof.
  intros H Ht. destruct (expand_sitemap_walk web depth url σ _ σ' evs H Ht)
    as [seen' Hw].
  apply walk_explored in Hw. pose proof (explored_reachable web _ _ _ _ Hw) as Hr.
  split; [done|]. destruct Hw as (_ & _ & _ & _ & He).
  intros p. rewrite He. split; intros (u & Hu & Hp); exists u; (split; [by apply Hr|done]).
Qed.

Lemma expansion_explores_reachable_sitemaps_witness :
  (∀ u, u ∈ fetched (trace (store_after SampleSitemaps.web SampleSitemaps.index)) ↔
        reachable SampleSitemaps.web SampleSitemaps.index u) ∧
  (∀ p, p ∈ [SampleSitemaps.bert; SampleSitemaps.anna; SampleSitemaps.bert] ↔
        ∃ u, reachable SampleSitemaps.web SampleSitemaps.index u ∧
             lists SampleSitemaps.web u p ∧ is_profile_loc p = true).
Proof.
  apply (expansion_explores_reachable_sitemaps SampleSitemaps.web 5
           SampleSitemaps.index initial_state
           [SampleSitemaps.bert; SampleSitemaps.anna; SampleSitemaps.bert]
           (store_after SampleSitemaps.web SampleSitemaps.index));
    vm_compute; reflexivity.
Defined.

(** X12.  The list [collect_profile_urls] returns depends on which seeds are
    given, not on their order or on how often one is repeated. *)
Theorem collected_urls_ignore_seed_order web depth seeds1 seeds2 σ1 σ2 :
  (size web < depth)%nat →
  (∀ s, s ∈ seeds1 ↔ s ∈ seeds2) →
  ∃ out σ1' σ2',
    collect_profile_urls depth web seeds1 σ1 = Some (out, σ1') ∧
    collect_profile_urls depth web seeds2 σ2 = Some (out, σ2').
Proof.
  intros Hd Hsame. unfold collect_profile_urls.
  rewrite (collect_seeds_enough web depth seeds1) by done.
  rewrite (collect_seeds_enough web depth seeds2) by done.
  destruct (collect_seeds_found web seeds1 ∅ σ1) as [τ1 ->].
  destruct (collect_seeds_found web seeds2 ∅ σ2) as [τ2 ->].
  rewrite (found_by_same_seeds web _ seeds1 seeds2 Hsame). simpl. eauto.
Qed.

Lemma collected_urls_ignore_seed_order_witness :
  ∃ out σ1' σ2',
    collect_profile_urls 5 SampleSitemaps.web
      [SampleSitemaps.index; SampleSitemaps.south] initial_state = Some (out, σ1') ∧
    collect_profile_urls 5 SampleSitemaps.web
      [SampleSitemaps.south; SampleSitemaps.index; SampleSitemaps.south]
      initial_state = Some (out, σ2').
Proof.
  apply collected_urls_ignore_seed_order.
  - vm_compute. lia.
  - intros s. rewrite !elem_of_cons, !elem_of_nil. tauto.
Defined.

(** X13.  The visit set is per seed: the downloads of a run are, seed after
    seed, the downloads each seed makes when expanded on its own, so a
    sitemap reached from several seeds is downloaded once for each of them. *)
Theorem seeds_are_expanded_independently web depth seeds σ out σ' :
  (size web < depth)%nat →
  collect_profile_urls depth web seeds σ = Some (out, σ') →
  fetched (trace σ') = fetched (trace σ) ++ flat_map (seed_downloads web) seeds.
Proof.
  intros Hd. unfold collect_profile_urls. rewrite collect_seeds_enough by done.
  destruct (collect_seeds _ _ _ _ _) as [[urls τ]|] eqn:Hc; [|done].
  simpl. intros [= <- <-]. apply collect_seeds_downloads in Hc.
  cbn [trace emit]. rewrite fetched_app, Hc. simpl. by rewrite app_nil_r.
Qed.

Lemma seeds_are_expanded_independently_witness :
  fetched (trace (default initial_state
     (snd <$> collect_profile_urls 5 SampleSitemaps.web
                [SampleSitemaps.south; SampleSitemaps.south] initial_state)))
  = fetched (trace initial_state)
    ++ flat_map (seed_downloads SampleSitemaps.web)
                [SampleSitemaps.south; SampleSitemaps.south].
Proof.
  apply (seeds_are_expanded_independently SampleSitemaps.web 5
           [SampleSitemaps.south; SampleSitemaps.south] initial_state
           [SampleSitemaps.anna; SampleSitemaps.bert]).
  - vm_compute. lia.
  - vm_compute. reflexivity.
Defined.

Example south_downloaded_twice :
  flat_map (seed_downloads SampleSitemaps.web)
           [SampleSitemaps.south; SampleSitemaps.south]
  = [SampleSitemaps.south; SampleSitemaps.north; SampleSitemaps.index;
     SampleSitemaps.broken;
     SampleSitemaps.south; SampleSitemaps.north; SampleSitemaps.index;
     SampleSitemaps.broken].
Proof. vm_compute. reflexivity. Qed.

(** ** Export *)

Lemma frame_line_of_row p :
  map (row_get (to_ordered_dict p)) export_columns = frame_line p.
Proof. destruct p. reflexivity. Qed.

Lemma frame_line_inj p q : frame_line p = frame_line q → p = q.
Proof.
  intros H. apply profile_ext. intros f. unfold frame_line in H.
  assert (∀ fs, map (fun f => Some (getattr p f)) fs
                = map (fun f => Some (getattr q f)) fs →
                ∀ f, f ∈ fs → getattr p f = getattr q f) as Haux.
  { induction fs as [|g fs IH]; intros Heq f' Hf'; [by apply elem_of_nil in Hf'|].
    cbn [map] in Heq. apply elem_of_cons in Hf' as [->|Hf']; [congruence|].
    apply IH; [congruence | done]. }
  apply (Haux fields H). apply fields_all.
Qed.

Lemma export_profiles_frame profiles path :
  export_profiles profiles path = (path, map frame_line profiles).
Proof.
  unfold export_profiles, DataFrame. f_equal.
  rewrite map_map. apply map_ext. intros p. apply frame_line_of_row.
Qed.

(** X14.  The exported frame has one line per record, in the order given, and
    the line of a record holds its eight fields under the eight column names,
    none of them left without a value; two lists of records with the same
    frame are the same list. *)
Theorem export_keeps_every_field :
  (∀ profiles path,
     export_profiles profiles path = (path, map frame_line profiles))
  ∧ (∀ ps qs path,
       export_profiles ps path = export_profiles qs path → ps = qs).
Proof.
  split; [apply export_profiles_frame|]. intros ps qs path.
  rewrite !export_profiles_frame. intros [= H].
  revert qs H. induction ps as [|p ps IH]; intros [|q qs] H; try done.
  cbn [map] in H.
  assert (frame_line p = frame_line q) as Hp by congruence.
  assert (map frame_line ps = map frame_line qs) as Hps by congruence.
  f_equal; [by apply frame_line_inj | by apply IH].
Qed.

(** ** Sessions *)

Lemma get_thread_session_inv tid st s st' :
  threads_inv st → get_thread_session tid st = (s, st') →
  threads_inv st' ∧ thread_local st' !! tid = Some s ∧
  thread_local st ⊆ thread_local st' ∧
  dom (thread_local st') = {[tid]} ∪ dom (thread_local st).
Proof.
  intros (Hlt & Hinj & Hsize). unfold get_thread_session.
  destruct (thread_local st !! tid) as [s0|] eqn:E.
  - intros [= <- <-]. split; [done|]. split; [done|]. split; [done|].
    apply elem_of_dom_2 in E. set_solver.
  - intros [= <- <-]. simpl. split; [|split; [|split]].
    + split; [|split]; simpl.
      * intros t s [[<- <-]|[Hne Hs]]%lookup_insert_Some; simpl; [lia|].
        apply Hlt in Hs. lia.
      * intros t1 t2 s1 s2 [[<- <-]|[Hne1 Hs1]]%lookup_insert_Some
          [[<- <-]|[Hne2 Hs2]]%lookup_insert_Some; simpl; try done.
        -- intros Heq. apply Hlt in Hs2. lia.
        -- intros Heq. apply Hlt in Hs1. lia.
        -- by eapply Hinj.
      * rewrite dom_insert_L, size_union, size_singleton; [lia|].
        apply not_elem_of_dom in E. set_solver.
    + apply lookup_insert_eq.
    + by apply insert_subseteq.
    + apply dom_insert_L.
Qed.

Lemma get_thread_sessions_inv tids st sessions st' :
  threads_inv st → get_thread_sessions tids st = (sessions, st') →
  threads_inv st' ∧
  thread_local st ⊆ thread_local st' ∧
  dom (thread_local st') = list_to_set tids ∪ dom (thread_local st) ∧
  Forall2 (fun tid s => thread_local st' !! tid = Some s) tids sessions.
Proof.
  revert st sessions st'. induction tids as [|tid rest IH]; intros st sessions st' Hinv;
    simpl.
  - intros [= <- <-]. split; [done|]. split; [done|]. split; [set_solver|constructor].
  - destruct (get_thread_session tid st) as [s st1] eqn:E1.
    destruct (get_thread_sessions rest st1) as [ss st2] eqn:E2.
    intros [= <- <-].
    destruct (get_thread_session_inv _ _ _ _ Hinv E1) as (Hinv1 & Hs & Hsub1 & Hdom1).
    destruct (IH _ _ _ Hinv1 E2) as (Hinv2 & Hsub2 & Hdom2 & HF).
    split; [done|]. split; [by etrans|]. split; [set_solver|].
    constructor; [|done]. by eapply lookup_weaken.
Qed.

Lemma threads_inv_empty : threads_inv no_threads.
Proof.
  split; [|split]; simpl.
  - intros tid s H. by rewrite lookup_empty in H.
  - intros t1 t2 s1 s2 H. by rewrite lookup_empty in H.
  - by rewrite dom_empty_L, size_empty.
Qed.

(** X15.  Over any sequence of calls of [get_thread_session], started with no
    session made, two calls return the same session exactly when they are
    made by the same thread, and the number of sessions created is the number
    of threads that called. *)
Theorem one_session_per_thread (tids : list nat) :
  ∀ sessions st,
    get_thread_sessions tids no_threads = (sessions, st) →
    sessions_made st = size (list_to_set tids : gset nat) ∧
    ∀ i j ti tj si sj,
      tids !! i = Some ti → tids !! j = Some tj →
      sessions !! i = Some si → sessions !! j = Some sj →
      (si = sj ↔ ti = tj).
Proof.
  intros sessions st H.
  destruct (get_thread_sessions_inv _ _ _ _ threads_inv_empty H)
    as ((Hlt & Hinj & Hsize) & _ & Hdom & HF).
  split.
  - rewrite Hsize, Hdom. simpl. rewrite dom_empty_L. f_equal. set_solver.
  - intros i j ti tj si sj Hti Htj Hsi Hsj.
    pose proof (Forall2_lookup_lr _ _ _ _ _ _ HF Hti Hsi) as Hi.
    pose proof (Forall2_lookup_lr _ _ _ _ _ _ HF Htj Hsj) as Hj.
    simpl in Hi, Hj. split.
    + intros <-. by eapply Hinj.
    + intros <-. congruence.
Qed.

Lemma one_session_per_thread_witness :
  sessions_made (get_thread_sessions [3; 1; 3; 1; 3]%nat no_threads).2 = 2%nat ∧
  (mkSession 0 DEFAULT_HEADERS = mkSession 0 DEFAULT_HEADERS ↔ 3%nat = 3%nat).
Proof.
  destruct (one_session_per_thread [3; 1; 3; 1; 3]%nat
              (get_thread_sessions [3; 1; 3; 1; 3]%nat no_threads).1
              (get_thread_sessions [3; 1; 3; 1; 3]%nat no_threads).2)
    as [Hmade Hsame]; [vm_compute; reflexivity|].
  split.
  - rewrite Hmade. vm_compute. reflexivity.
  - apply (Hsame 0%nat 2%nat); vm_compute; reflexivity.
Defined.

Lemma export_keeps_every_field_witness :
  [Samples.jane; Samples.john] = [Samples.jane; Samples.john].
Proof.
  apply (proj2 export_keeps_every_field [Samples.jane; Samples.john]
           [Samples.jane; Samples.john] "out.xlsx").
  reflexivity.
Defined.

(** ** The run *)

Lemma submitted_app evs1 evs2 : submitted (evs1 ++ evs2) = submitted evs1 ++ submitted evs2.
Proof. apply omap_app. Qed.

Lemma exported_app evs1 evs2 : exported (evs1 ++ evs2) = exported evs1 ++ exported evs2.
Proof. apply omap_app. Qed.

Lemma submitted_walker evs : submitted (map me_walker evs) = [].
Proof. induction evs as [|ev evs IH]; [done|]. exact IH. Qed.

Lemma exported_walker evs : exported (map me_walker evs) = [].
Proof. induction evs as [|ev evs IH]; [done|]. exact IH. Qed.

Lemma submitted_submit urls : submitted (map me_submit urls) = urls.
Proof.
  induction urls as [|u urls IH]; [done|]. unfold submitted in *. csimpl.
  by rewrite IH.
Qed.

Lemma exported_submit urls : exported (map me_submit urls) = [].
Proof. induction urls as [|u urls IH]; [done|]. exact IH. Qed.

Lemma gather_spec pages delay_range completed index profiles :
  (gather pages delay_range completed index profiles).1
    = profiles ++ omap (worker_record pages delay_range) completed ∧
  submitted (gather pages delay_range completed index profiles).2 = [] ∧
  exported (gather pages delay_range completed index profiles).2 = [].
Proof.
  revert index profiles. induction completed as [|url rest IH]; intros index profiles.
  - simpl. by rewrite app_nil_r.
  - cbn [gather]. csimpl. unfold worker_record at 1.
    destruct (fetch_profile pages url delay_range).1 as [[p|]|e].
    + destruct (IH (S index) (profiles ++ [p])) as (H1 & H2 & H3).
      destruct (gather pages delay_range rest (S index) (profiles ++ [p])) as [ps evs].
      simpl in *. rewrite H1, <- app_assoc. split; [done|].
      rewrite submitted_app, exported_app, H2, H3.
      destruct (Nat.eqb _ _); split; reflexivity.
    + destruct (IH (S index) profiles) as (H1 & H2 & H3).
      destruct (gather pages delay_range rest (S index) profiles) as [ps evs].
      simpl in *. split; [done|].
      rewrite submitted_app, exported_app, H2, H3.
      destruct (Nat.eqb _ _); split; reflexivity.
    + destruct (IH (S index) profiles) as (H1 & H2 & H3).
      destruct (gather pages delay_range rest (S index) profiles) as [ps evs].
      simpl in *. done.
Qed.

Lemma slice_to_prefix l n : prefix (slice_to l n) l.
Proof. unfold slice_to. destruct (0 <=? n)%Z; apply prefix_take. Qed.

Lemma slice_to_length l n :
  (0 ≤ n)%Z → (length (slice_to l n) ≤ Z.to_nat n)%nat.
Proof.
  intros Hn. unfold slice_to. rewrite (proj2 (Z.leb_le 0 n)) by done.
  rewrite length_take. lia.
Qed.

Lemma collect_profile_urls_NoDup depth web seeds σ out σ' :
  collect_profile_urls depth web seeds σ = Some (out, σ') → NoDup out.
Proof.
  unfold collect_profile_urls.
  destruct (collect_seeds depth web seeds ∅ σ) as [[urls τ]|]; [|done].
  simpl. intros [= <- _]. apply sorted_spec.
Qed.

Lemma submitted_log lvl msg evs : submitted (me_log lvl msg :: evs) = submitted evs.
Proof. reflexivity. Qed.

Lemma exported_log lvl msg evs : exported (me_log lvl msg :: evs) = exported evs.
Proof. reflexivity. Qed.

(** The events of [main] up to the submission of the tasks hold no
    submission and no export. *)
Lemma main_prelude_quiet (args : Args) (σ : state) out :
  let evs :=
    me_log INFO (mm_initial_sitemaps (sitemaps args)) :: map me_walker (trace σ) in
  let '(urls, evs) :=
    match limit args with
    | Some n => (slice_to out n, evs ++ [me_log INFO (mm_limit (length (slice_to out n)))])
    | None => (out, evs)
    end in
  urls = match limit args with Some n => slice_to out n | None => out end ∧
  submitted evs = [] ∧ exported evs = [].
Proof.
  simpl. destruct (limit args) as [n|].
  - split; [done|]. rewrite submitted_log, exported_log, submitted_app, exported_app.
    by rewrite submitted_walker, exported_walker.
  - split; [done|]. rewrite submitted_log, exported_log.
    by rewrite submitted_walker, exported_walker.
Qed.

(** What [main] submits and writes, case by case. *)
Lemma main_cases depth args web pages schedule ex evs :
  main depth args web pages schedule = Some (ex, evs) →
  (submitted evs = [] ∧ exported evs = [] ∧
   ((max_delay args < min_delay args)%Q ∨
    ∃ out σ,
      collect_profile_urls depth web (sitemaps args) initial_state = Some (out, σ) ∧
      (match limit args with Some n => slice_to out n | None => out end = [] ∨
       (max_workers args ≤ 0)%Z)))
  ∨ (∃ out σ,
       collect_profile_urls depth web (sitemaps args) initial_state = Some (out, σ) ∧
       (min_delay args <= max_delay args)%Q ∧ (0 < max_workers args)%Z ∧
       submitted evs = match limit args with Some n => slice_to out n | None => out end ∧
       submitted evs ≠ [] ∧
       exported evs =
         match omap (worker_record pages (min_delay args, max_delay args))
                    (schedule (submitted evs)) with
         | [] => []
         | p :: ps => [(output args, map frame_line (p :: ps))]
         end).
Proof.
  unfold main. destruct (Qlt_le_dec (max_delay args) (min_delay args)) as [Hlt|Hle].
  { intros [= <- <-]. left. auto. }
  destruct (collect_profile_urls depth web (sitemaps args) initial_state)
    as [[out σ]|] eqn:Hc; [|done].
  cbn [mbind option_bind].
  pose proof (main_prelude_quiet args σ out) as Hq. cbv zeta in Hq.
  destruct (match limit args with
            | Some n => _
            | None => _
            end) as [urls evs0].
  destruct Hq as (Hurls & Hs0 & He0).
  destruct urls as [|u us] eqn:Eu.
  { intros [= <- <-]. left. rewrite submitted_app, exported_app, Hs0, He0.
    split; [done|]. split; [done|]. right. exists out, σ. split; [done|]. by left. }
  destruct (max_workers args <=? 0)%Z eqn:Ew.
  { intros [= <- <-]. left. rewrite submitted_app, exported_app, Hs0, He0.
    split; [done|]. split; [done|]. right. exists out, σ. split; [done|]. right.
    by apply Z.leb_le. }
  destruct (gather_spec pages (min_delay args, max_delay args)
              (schedule (u :: us)) 1 []) as (Hg1 & Hg2 & Hg3).
  destruct (gather pages (min_delay args, max_delay args) (schedule (u :: us)) 1 [])
    as [profiles loop]. simpl in Hg1, Hg2, Hg3.
  intros H. right. exists out, σ. split; [done|]. split; [done|].
  split; [by apply Z.leb_gt in Ew|].
  destruct profiles as [|p ps].
  - injection H as <- <-.
    change (me_submit u :: map me_submit us) with (map me_submit (u :: us)).
    rewrite !submitted_app, !exported_app, Hs0, He0, Hg2, Hg3,
      submitted_submit, exported_submit.
    cbn [app submitted exported omap list_omap]. rewrite !app_nil_r, <- Hurls.
    split; [done|]. split; [done|]. by rewrite <- Hg1.
  - pose proof (export_profiles_frame (p :: ps) (output args)) as Hframe.
    destruct (export_profiles (p :: ps) (output args)) as [path frame].
    injection Hframe as -> ->.
    injection H as <- <-.
    change (me_submit u :: map me_submit us) with (map me_submit (u :: us)).
    rewrite !submitted_app, !exported_app, Hs0, He0, Hg2, Hg3,
      submitted_submit, exported_submit.
    cbn [app submitted exported omap list_omap]. rewrite !app_nil_r, <- Hurls.
    split; [done|]. split; [done|]. by rewrite <- Hg1.
Qed.

(** X16.  [main] hands each URL to the pool at most once: the URLs submitted
    are an initial part of the sorted list the walker returned, no URL is
    submitted twice, a non-negative limit bounds their number, and when the
    delay bounds are inverted or the pool has no worker nothing is
    submitted. *)
Theorem main_submits_selected_urls_once depth args web pages schedule ex evs :
  main depth args web pages schedule = Some (ex, evs) →
  NoDup (submitted evs) ∧
  (∀ out σ,
     collect_profile_urls depth web (sitemaps args) initial_state = Some (out, σ) →
     prefix (submitted evs) out) ∧
  (∀ n, limit args = Some n → (0 ≤ n)%Z →
        (length (submitted evs) ≤ Z.to_nat n)%nat) ∧
  ((max_delay args < min_delay args)%Q ∨ (max_workers args ≤ 0)%Z →
   submitted evs = []).
Proof.
  intros [(Hs & _ & _)|(out & σ & Hc & Hle & Hw & Hs & _ & _)]%main_cases.
  - rewrite Hs. split; [constructor|]. split; [intros; apply prefix_nil|].
    split; [simpl; lia | done].
  - assert (prefix (submitted evs) out) as Hpre.
    { rewrite Hs. destruct (limit args); [apply slice_to_prefix | done]. }
    split; [|split; [|split]].
    + destruct Hpre as [k Hk]. apply collect_profile_urls_NoDup in Hc.
      rewrite Hk in Hc. by apply NoDup_app in Hc as [? _].
    + intros out' σ' Hc'. rewrite Hc in Hc'. by injection Hc' as <- _.
    + intros n Hn H0. rewrite Hs, Hn. by apply slice_to_length.
    + intros [Hlt|Hw0]; [|lia]. by apply Qle_not_lt in Hle.
Qed.

Lemma main_submits_selected_urls_once_witness :
  NoDup (submitted (default (exit_return, [])
           (main 5 SampleRun.args SampleSitemaps.web SampleRun.pages id)).2) ∧
  (length (submitted (default (exit_return, [])
             (main 5 SampleRun.args SampleSitemaps.web SampleRun.pages id)).2)
   ≤ Z.to_nat 1)%nat.
Proof.
  destruct (main_submits_selected_urls_once 5 SampleRun.args SampleSitemaps.web
              SampleRun.pages id exit_return
              (default (exit_return, [])
                 (main 5 SampleRun.args SampleSitemaps.web SampleRun.pages id)).2)
    as (Hnodup & _ & Hlimit & _); [vm_compute; reflexivity|].
  split; [done|]. apply Hlimit; [reflexivity | lia].
Defined.

(** X17.  Whatever the order in which the tasks complete, [main] writes one
    file exactly when some submitted URL's worker returned a record, and its
    lines are then the records of the submitted URLs whose worker returned
    one, each once; a URL whose worker returned nothing or raised takes no
    line and loses no other line. *)
Theorem main_exports_every_record depth args web pages schedule ex evs :
  (∀ urls, schedule urls ≡ₚ urls) →
  main depth args web pages schedule = Some (ex, evs) →
  ∃ ps,
    ps ≡ₚ omap (worker_record pages (min_delay args, max_delay args))
               (submitted evs) ∧
    exported evs = match ps with
                   | [] => []
                   | _ :: _ => [(output args, map frame_line ps)]
                   end.
Proof.
  intros Hperm [(Hs & He & _)|(out & σ & _ & _ & _ & _ & _ & He)]%main_cases.
  - exists []. by rewrite Hs, He.
  - exists (omap (worker_record pages (min_delay args, max_delay args))
                 (schedule (submitted evs))).
    split; [by rewrite Hperm|]. rewrite He. by destruct (omap _ _).
Qed.

Lemma main_exports_every_record_witness :
  ∃ ps,
    ps ≡ₚ omap (worker_record SampleRun.pages (3 # 10, 8 # 10))
               (submitted (default (exit_return, [])
                  (main 5 SampleRun.unlimited SampleSitemaps.web SampleRun.pages
                        reverse)).2) ∧
    exported (default (exit_return, [])
                (main 5 SampleRun.unlimited SampleSitemaps.web SampleRun.pages
                      reverse)).2
    = match ps with
      | [] => []
      | _ :: _ => [("out.xlsx", map frame_line ps)]
      end.
Proof.
  apply (main_exports_every_record 5 SampleRun.unlimited SampleSitemaps.web
           SampleRun.pages reverse exit_return).
  - intros urls. apply reverse_Permutation.
  - vm_compute. reflexivity.
Defined.

Example run_sample :
  (λ x, (x.1, submitted x.2, exported x.2))
    <$> main 5 SampleRun.unlimited SampleSitemaps.web SampleRun.pages reverse
  = Some (exit_return,
          [SampleSitemaps.anna; SampleSitemaps.bert],
          [("out.xlsx", [frame_line SampleRun.anna])]).
Proof. vm_compute. reflexivity. Qed.

(** ** The pause of the worker *)



(** After a pause that returns, the call is what [fetch_profile] has. *)
Lemma fetch_profile_paced_returns web url delay_range u :
  (pause url delay_range u).1 = Ok tt →
  fetch_profile_paced web url delay_range u = fetch_profile web url delay_range.
Proof.
  unfold fetch_profile_paced. by destruct (pause url delay_range u) as [[[]|e] evs].
Qed.



(** ** C7: downloads that fail *)

Lemma fetch_response_web_of {A} (answers : gmap string (result (Response A))) url :
  fetch_response (web_of answers) url = checked (session_get answers url).
Proof.
  unfold fetch_response, web_of, session_get. rewrite lookup_fmap.
  by destruct (answers !! url).
Qed.

Lemma raise_for_status_error {A} (response : Response A) :
  (400 ≤ status_code response < 600)%Z →
  raise_for_status response = Raise HTTPError.
Proof.
  intros [Hlo Hhi]. unfold raise_for_status.
  by rewrite (proj2 (Z.leb_le _ _) Hlo), (proj2 (Z.ltb_lt _ _) Hhi).
Qed.

Lemma raise_for_status_other {A} (response : Response A) :
  (status_code response < 400 ∨ 600 ≤ status_code response)%Z →
  raise_for_status response = Ok tt.
Proof.
  intros H. unfold raise_for_status.
  destruct (Z.leb_spec 400 (status_code response)),
    (Z.ltb_spec (status_code response) 600); simpl; try done; lia.
Qed.

Lemma omap_without {A B} `{EqDecision A} (f : A → option B) (x : A) (l : list A) :
  f x = None → omap f (filter (λ y, y ≠ x) l) = omap f l.
Proof.
  intros Hx. induction l as [|y l IH]; [done|].
  rewrite filter_cons. destruct (decide (y ≠ x)) as [Hy|Hy]; csimpl.
  - by rewrite IH.
  - apply dec_stable in Hy as ->. by rewrite Hx, IH.
Qed.

(** A task whose worker returns no record takes nothing from what the loop
    of [main] collects from the other tasks. *)
Lemma gather_without pages delay_range url completed index profiles :
  worker_record pages delay_range url = None →
  (gather pages delay_range completed index profiles).1
  = (gather pages delay_range (filter (λ u, u ≠ url) completed) index profiles).1.
Proof.
  intros Hn.
  destruct (gather_spec pages delay_range completed index profiles) as (-> & _).
  destruct (gather_spec pages delay_range (filter (λ u, u ≠ url) completed)
              index profiles) as (-> & _).
  by rewrite omap_without.
Qed.

(** C7.  When the request is made (the pause before it has returned) and
    the answer has an error status, 400 to 599, or the request itself fails,
    [fetch_profile] returns [None] and does not raise; the last thing it
    does is log a warning that names the URL; it calls no extractor; and the
    loop of [main] collects from the tasks the records it collects when the
    URL is not among them.  An answer with any other status is handed on as a
    downloaded page. *)
Theorem fetch_failure_gives_no_record
    (answers : gmap string (result (Response Soup))) url delay_range u :
  ((pause url delay_range u).1 = Ok tt →
   match session_get answers url with
   | Ok response => (400 ≤ status_code response < 600)%Z
   | Raise e => e = RequestException
   end →
   ∃ evs,
     fetch_profile_paced (web_of answers) url delay_range u = (Ok None, evs) ∧
     last evs = Some (ev_log WARNING
                        (match session_get answers url with
                         | Ok _ => msg_http_error url
                         | Raise _ => msg_network_failure url
                         end)) ∧
     (∀ item, ev_extract_from_schema item ∉ evs) ∧
     (ev_extract_microdata ∉ evs) ∧
     (∀ completed index profiles,
        (gather (web_of answers) delay_range completed index profiles).1
        = (gather (web_of answers) delay_range
                  (filter (λ u, u ≠ url) completed) index profiles).1))
  ∧ (∀ response,
       session_get answers url = Ok response →
       (status_code response < 400 ∨ 600 ≤ status_code response)%Z →
       fetch_response (web_of answers) url = Ok (body response)).
Proof.
  split.
  - intros Hpause H. rewrite fetch_profile_paced_returns by done.
    assert (∃ e, fetch_response (web_of answers) url = Raise e ∧
                 (e = HTTPError ∨ e = RequestException) ∧
                 match session_get answers url with
                 | Ok _ => msg_http_error url
                 | Raise _ => msg_network_failure url
                 end = match e with
                       | HTTPError => msg_http_error url
                       | _ => msg_network_failure url
                       end) as (e & Hf & He & ->).
    { rewrite fetch_response_web_of.
      destruct (session_get answers url) as [response|e0].
      - exists HTTPError. unfold checked. cbn [mbind result_bind].
        rewrite raise_for_status_error by done. auto.
      - subst e0. exists RequestException. auto. }
    destruct (fetch_profile_failure (web_of answers) url delay_range e Hf He)
      as (evs & Hp & Hlast & Hs & Hm).
    exists evs. split; [done|]. split; [done|]. split; [done|]. split; [done|].
    intros completed index profiles. apply gather_without.
    unfold worker_record. by rewrite Hp.
  - intros response Hg Hs. rewrite fetch_response_web_of, Hg. unfold checked.
    cbn [mbind result_bind]. by rewrite raise_for_status_other.
Qed.

Lemma fetch_failure_gives_no_record_witness :
  (∃ evs,
     fetch_profile_paced (web_of SampleNet.answers) SampleWeb.gone
       SampleWeb.delay_range (1 # 2) = (Ok None, evs) ∧
     last evs = Some (ev_log WARNING (msg_http_error SampleWeb.gone)))
  ∧ (∃ evs,
     fetch_profile_paced (web_of SampleNet.answers) SampleNet.down
       SampleWeb.delay_range (1 # 2) = (Ok None, evs) ∧
     last evs = Some (ev_log WARNING (msg_network_failure SampleNet.down))).
Proof.
  split.
  - destruct (proj1 (fetch_failure_gives_no_record SampleNet.answers SampleWeb.gone
                       SampleWeb.delay_range (1 # 2)))
      as (evs & Hp & Hlast & _);
      [vm_compute; reflexivity | vm_compute; split; [discriminate | reflexivity]|].
    exists evs. split; [done|]. exact Hlast.
  - destruct (proj1 (fetch_failure_gives_no_record SampleNet.answers SampleNet.down
                       SampleWeb.delay_range (1 # 2)))
      as (evs & Hp & Hlast & _); [vm_compute; reflexivity | vm_compute; reflexivity|].
    exists evs. split; [done|]. exact Hlast.
Defined.

(** C7, as the claim has it, fails on an answer outside 2xx that is not an
    error status: the page that comes with status 300 is parsed and its
    record returned, and no warning is logged. *)
Lemma redirection_answer_gives_a_record :
  ∃ response p evs,
    session_get SampleNet.answers SampleNet.choices = Ok response ∧
    ¬ (200 ≤ status_code response < 300)%Z ∧
    fetch_profile_paced (web_of SampleNet.answers) SampleNet.choices
      SampleWeb.delay_range (1 # 2) = (Ok (Some p), evs) ∧
    name p = Some "John Roe" ∧
    ∀ msg, ev_log WARNING msg ∉ evs.
Proof.
  eexists _, _, _. split; [vm_compute; reflexivity|]. split; [simpl; lia|].
  split; [vm_compute; reflexivity|]. split; [reflexivity|].
  intros msg. not_among.
Qed.
